(** * Storefront routes: product page and home page

  A shallow embedding of the two route modules of the storefront:

  - the product route (loader and the URL-synchronising effect of the
    [Product] component), and
  - the home route (loader).

  JavaScript strings are represented by Rocq strings holding their UTF-8
  bytes.  The platform's [URLSearchParams] is embedded as the WHATWG
  [application/x-www-form-urlencoded] parser and serializer on such byte
  strings; the UTF-8 decoding step of the parser is the identity in this
  representation (replacement of ill-formed sequences is not modelled). *)

From Stdlib Require Import String Ascii List Bool Arith Lia.
Import ListNotations.
Local Open Scope string_scope.
Local Open Scope list_scope.

(** ** Strings *)

Module Str.

(** [s.slice(1)] *)
Definition slice1 (s : string) : string :=
  match s with
  | EmptyString => EmptyString
  | String _ r => r
  end.

(** [parts.join(sep)] *)
Fixpoint join (sep : string) (parts : list string) : string :=
  match parts with
  | [] => ""
  | [p] => p
  | p :: rest => p ++ sep ++ join sep rest
  end.

(** Split at every occurrence of the byte [sep]; always at least one piece. *)
Fixpoint split_on (sep : ascii) (s : string) : list string :=
  match s with
  | EmptyString => [""]
  | String c r =>
      if Ascii.eqb c sep then "" :: split_on sep r
      else match split_on sep r with
           | [] => [String c ""]
           | p :: ps => String c p :: ps
           end
  end.

(** Split at the first occurrence of [sep], if there is one. *)
Fixpoint cut (sep : ascii) (s : string) : option (string * string) :=
  match s with
  | EmptyString => None
  | String c r =>
      if Ascii.eqb c sep then Some ("", r)
      else match cut sep r with
           | Some (a, b) => Some (String c a, b)
           | None => None
           end
  end.

Definition is_empty (s : string) : bool :=
  match s with EmptyString => true | _ => false end.

Fixpoint all (p : ascii -> bool) (s : string) : bool :=
  match s with
  | EmptyString => true
  | String c r => p c && all p r
  end.

End Str.

(** ** URLSearchParams *)

Module URLSearchParams.

(** The object's state is its list of name-value tuples. *)
Definition t := list (string * string).

Definition in_range (lo hi : nat) (c : ascii) : bool :=
  Nat.leb lo (nat_of_ascii c) && Nat.leb (nat_of_ascii c) hi.

(** Bytes left as they are by the urlencoded serializer:
    ASCII alphanumerics and [*], [-], [.], [_]. *)
Definition is_plain (c : ascii) : bool :=
  in_range 48 57 c || in_range 65 90 c || in_range 97 122 c
  || Ascii.eqb c "*" || Ascii.eqb c "-" || Ascii.eqb c "." || Ascii.eqb c "_".

Definition hex_digit (n : nat) : ascii :=
  if Nat.ltb n 10 then ascii_of_nat (48 + n) else ascii_of_nat (55 + n).

Definition hex_value (c : ascii) : option nat :=
  let n := nat_of_ascii c in
  if in_range 48 57 c then Some (n - 48)
  else if in_range 65 70 c then Some (n - 55)
  else if in_range 97 102 c then Some (n - 87)
  else None.

Definition encode_byte (c : ascii) : string :=
  if Ascii.eqb c " " then "+"
  else if is_plain c then String c ""
  else String "%" (String (hex_digit (nat_of_ascii c / 16))
                     (String (hex_digit (nat_of_ascii c mod 16)) "")).

(** urlencoded byte serializer *)
Fixpoint encode (s : string) : string :=
  match s with
  | EmptyString => ""
  | String c r => encode_byte c ++ encode r
  end.

Definition serialize_tuple (p : string * string) : string :=
  encode (fst p) ++ "=" ++ encode (snd p).

(** [params.toString()] *)
Definition toString (l : t) : string :=
  Str.join "&" (map serialize_tuple l).

Fixpoint plus_to_space (s : string) : string :=
  match s with
  | EmptyString => ""
  | String c r =>
      String (if Ascii.eqb c "+" then " "%char else c) (plus_to_space r)
  end.

(** percent-decode: a [%] not followed by two hex digits stays as it is. *)
Fixpoint percent_decode (s : string) : string :=
  match s with
  | EmptyString => ""
  | String c r =>
      if Ascii.eqb c "%" then
        match r with
        | String h1 (String h2 r') =>
            match hex_value h1, hex_value h2 with
            | Some a, Some b =>
                String (ascii_of_nat (16 * a + b)) (percent_decode r')
            | _, _ => String c (percent_decode r)
            end
        | _ => String c (percent_decode r)
        end
      else String c (percent_decode r)
  end.

Definition decode (s : string) : string :=
  percent_decode (plus_to_space s).

Definition parse_tuple (piece : string) : string * string :=
  match Str.cut "=" piece with
  | Some (n, v) => (decode n, decode v)
  | None => (decode piece, "")
  end.

(** urlencoded parser *)
Definition parse (s : string) : t :=
  map parse_tuple
      (filter (fun p => negb (Str.is_empty p)) (Str.split_on "&" s)).

(** [new URLSearchParams(init)] for a string [init]: one leading [?] is
    dropped. *)
Definition of_string (init : string) : t :=
  match init with
  | String "?" r => parse r
  | _ => parse init
  end.

(** [new URLSearchParams(other)]: a copy of the list. *)
Definition copy (l : t) : t := l.

(** [params.get(name)]: the value of the first tuple named [name]. *)
Fixpoint get (name : string) (l : t) : option string :=
  match l with
  | [] => None
  | (k, v) :: r => if String.eqb k name then Some v else get name r
  end.

Definition remove_name (name : string) (l : t) : t :=
  filter (fun p => negb (String.eqb (fst p) name)) l.

(** [params.set(name, value)]: the first tuple named [name] takes the
    value and the others are removed; without one, a tuple is appended. *)
Fixpoint set (name value : string) (l : t) : t :=
  match l with
  | [] => [(name, value)]
  | (k, v) :: r =>
      if String.eqb k name then (name, value) :: remove_name name r
      else (k, v) :: set name value r
  end.

End URLSearchParams.


(** ** The product route: data of the loader payload *)

Record SelectedOption := {
  name : string;
  value : string
}.

Record ProductVariant := {
  variantId : string;
  variantTitle : string;
  priceAmount : string;
  availableForSale : bool;
  variantProductHandle : string;   (* variant.product.handle *)
  selectedOptions : list SelectedOption
}.

Record ProductData := {
  id : string;
  handle : string;
  title : string;
  vendor : string;
  tags : list string;
  variants : list ProductVariant;
  selectedOrFirstAvailableVariant : option ProductVariant
}.

(** ** The browser's location, as the component reads and replaces it *)

Record Location := {
  pathname : string;
  query : string;   (* the URL's query, without the question mark *)
  hash : string
}.

(** [window.location.search]: empty for an absent or empty query. *)
Definition search (loc : Location) : string :=
  match query loc with
  | EmptyString => ""
  | q => String "?" q
  end.

(** A call [window.history.replaceState({}, "", `${path}?${newSearch}`)]. *)
Inductive HistoryCall :=
| ReplaceState (path newSearch : string).

Definition url_of_call (c : HistoryCall) : string :=
  match c with
  | ReplaceState path newSearch => path ++ "?" ++ newSearch
  end.

(** The location after the call: the entry's URL is the given path (a
    same-document path that begins with one slash) with the given query, and
    carries no fragment. *)
Definition perform (loc : Location) (c : option HistoryCall) : Location :=
  match c with
  | None => loc
  | Some (ReplaceState path newSearch) =>
      {| pathname := path; query := newSearch; hash := "" |}
  end.

(** ** The [Product] component's URL synchronisation *)

(** [currentValue !== option.value], where [currentValue] may be [null]. *)
Definition differs (currentValue : option string) (v : string) : bool :=
  match currentValue with
  | None => true
  | Some c => negb (String.eqb c v)
  end.

(** The [for ... of] loop with its [break]. *)
Fixpoint anyOptionDiffers (currentParams : URLSearchParams.t)
  (options : list SelectedOption) : bool :=
  match options with
  | [] => false
  | option :: rest =>
      if differs (URLSearchParams.get (name option) currentParams) (value option)
      then true
      else anyOptionDiffers currentParams rest
  end.

Definition needsUpdate (loc : Location) (options : list SelectedOption) : bool :=
  let currentParams := URLSearchParams.of_string (search loc) in
  if String.eqb (search loc) "" then true
  else anyOptionDiffers currentParams options.

(** The second loop: [updatedParams.set(option.name, option.value)]. *)
Definition setOptions (options : list SelectedOption)
  (params : URLSearchParams.t) : URLSearchParams.t :=
  fold_left (fun acc option => URLSearchParams.set (name option) (value option) acc)
            options params.

Definition newSearch (loc : Location) (options : list SelectedOption) : string :=
  let currentParams := URLSearchParams.of_string (search loc) in
  let updatedParams := setOptions options (URLSearchParams.copy currentParams) in
  URLSearchParams.toString updatedParams.

(** The body of the effect: the history call it makes, if any.  The first
    guard is [!selectedVariant?.selectedOptions || combinedListing]; every
    variant carries its [selectedOptions] array, so the first disjunct is
    the absence of a variant. *)
Definition syncEffect (combinedListing : bool)
  (selectedVariant : option ProductVariant) (loc : Location)
  : option HistoryCall :=
  match selectedVariant with
  | None => None
  | Some variant =>
      if combinedListing then None
      else if needsUpdate loc (selectedOptions variant) then
        let s := newSearch loc (selectedOptions variant) in
        if negb (String.eqb s (Str.slice1 (search loc)))
        then Some (ReplaceState (pathname loc) s)
        else None
      else None
  end.

(** One run of the effect on the location. *)
Definition synchronize (combinedListing : bool)
  (selectedVariant : option ProductVariant) (loc : Location) : Location :=
  perform loc (syncEffect combinedListing selectedVariant loc).

Section ProductComponent.

(** [isCombinedListing] of [~/utils/combined-listings] and the two Hydrogen
    helpers are taken as parameters. *)
Variable isCombinedListing : ProductData -> bool.
Variable getAdjacentAndFirstAvailableVariants : ProductData -> list ProductVariant.
Variable useOptimisticVariant :
  option ProductVariant -> list ProductVariant -> option ProductVariant.

Definition Product_selectedVariant (product : ProductData) : option ProductVariant :=
  useOptimisticVariant (selectedOrFirstAvailableVariant product)
                       (getAdjacentAndFirstAvailableVariants product).

(** The effect as the component runs it on the loader's product. *)
Definition Product (product : ProductData) (loc : Location) : option HistoryCall :=
  let combinedListing := isCombinedListing product in
  let selectedVariant := Product_selectedVariant product in
  syncEffect combinedListing selectedVariant loc.

End ProductComponent.

(** ** Server side: requests, thrown values, effects *)

Record Request := {
  req_origin : string;
  req_pathname : string;
  req_search : string
}.

(** [request.url] *)
Definition url (r : Request) : string :=
  req_origin r ++ req_pathname r ++ req_search r.

Record I18n := {
  country : string;
  language : string;
  pathPrefix : option string
}.

(** [LoaderFunctionArgs]: the route parameters, the request and the part of
    the context the loaders read. *)
Record LoaderFunctionArgs := {
  params_productHandle : option string;
  params_locale : option string;
  request : Request;
  i18n : I18n
}.

Record Response := {
  status : nat;
  body : option string;
  location : option string
}.

(** What a loader can throw. *)
Inductive Thrown :=
| ThrownResponse (r : Response)
| ThrownError (message : string).

Inductive PageType := INDEX | CUSTOM | PRODUCT | PAGE | COLLECTION.

(** Hydrogen's [AnalyticsPageType] (some of its members). *)
Module AnalyticsPageType.
Inductive t :=
| home | product | collection | page | search | cart | notFound.
End AnalyticsPageType.

Record SeoConfig := {
  seo_title : string;
  seo_description : string;
  seo_url : string
}.

(** The page-builder payload; [None] is the loader's [null]. *)
Definition WeaverseLoaderData := option string.

Record ProductShop := {
  shopName : string;
  primaryDomain_url : string
}.

Record ProductQuery := {
  pq_shop : ProductShop;
  pq_product : option ProductData
}.

Record HomeShop := {
  home_shopName : string;
  home_shopDescription : string
}.

Record ShopQuery := {
  sq_shop : HomeShop
}.

(** Reads and computations a loader starts, in the order it starts them. *)
Inductive Event :=
| QueryProduct (handle : string) (selectedOptions : list SelectedOption)
               (country language : string)
| QueryShop
| LoadPage (type : PageType) (handle : option string)
| CheckHandleIsLocalized (handle : string)
| CheckCombinedListing
| GetRecommendedProducts (productId : string)
| SeoProduct (requestUrl : string)
| SeoHome
| ValidateWeaverseData.

Definition Trace := list Event.

Inductive Outcome (A : Type) :=
| Returned (a : A)
| Threw (e : Thrown).

Arguments Returned {A} a.
Arguments Threw {A} e.

(** Computations that log what they start and may throw. *)
Definition M (A : Type) : Type := Trace -> Outcome A * Trace.

Definition ret {A} (a : A) : M A := fun t => (Returned a, t).

Definition bind {A B} (m : M A) (k : A -> M B) : M B :=
  fun t =>
    match m t with
    | (Returned a, t') => k a t'
    | (Threw e, t') => (Threw e, t')
    end.

Definition emit (ev : Event) : M unit := fun t => (Returned tt, t ++ [ev]).

Definition throw {A} (e : Thrown) : M A := fun t => (Threw e, t).

Declare Scope loader_scope.
Delimit Scope loader_scope with loader.
Notation "x <- m ;; k" := (bind m (fun x => k))
  (at level 61, m at next level, right associativity) : loader_scope.
Notation "m ;; k" := (bind m (fun _ => k))
  (at level 61, right associativity) : loader_scope.

(** A helper that either returns or throws a response. *)
Definition run_check (ev : Event) (r : option Response) : M unit :=
  (emit ev ;;
   match r with
   | Some resp => throw (ThrownResponse resp)
   | None => ret tt
   end)%loader.

(** The message of the [Error] that tiny-invariant throws: the bare prefix
    in a production build (and for an empty message), the prefix followed by
    the message otherwise. *)
Definition invariant_message (isProduction : bool) (message : string) : string :=
  if isProduction then "Invariant failed"
  else if Str.is_empty message then "Invariant failed"
  else "Invariant failed: " ++ message.

(** [invariant(value, message)] of tiny-invariant on an optional string. *)
Definition invariant (isProduction : bool) (v : option string)
  (message : string) : M string :=
  match v with
  | Some (String c r) => ret (String c r)
  | _ => throw (ThrownError (invariant_message isProduction message))
  end.

(** ** [Promise.all] on two promises *)

Inductive PromiseState (A : Type) :=
| Waiting
| Fulfilled (a : A)
| Rejected (e : Thrown).

Arguments Waiting {A}.
Arguments Fulfilled {A} a.
Arguments Rejected {A} e.

(** A settlement of the first or of the second promise. *)
Inductive Settlement (A B : Type) :=
| Fulfil0 (a : A)
| Fulfil1 (b : B)
| Reject0 (e : Thrown)
| Reject1 (e : Thrown).

Arguments Fulfil0 {A B} a.
Arguments Fulfil1 {A B} b.
Arguments Reject0 {A B} e.
Arguments Reject1 {A B} e.

(** The two input promises and the first rejection seen, if any. *)
Record Join (A B : Type) := {
  slot0 : PromiseState A;
  slot1 : PromiseState B;
  firstRejection : option Thrown
}.

Arguments slot0 {A B} j.
Arguments slot1 {A B} j.
Arguments firstRejection {A B} j.

Definition join_start {A B} : Join A B :=
  {| slot0 := Waiting; slot1 := Waiting; firstRejection := None |}.

Definition note_rejection (old : option Thrown) (e : Thrown) : option Thrown :=
  match old with
  | Some e0 => Some e0
  | None => Some e
  end.

(** A promise settles once; later settlements of the same promise are ignored. *)
Definition settle {A B} (j : Join A B) (s : Settlement A B) : Join A B :=
  match s with
  | Fulfil0 a =>
      match slot0 j with
      | Waiting => {| slot0 := Fulfilled a; slot1 := slot1 j;
                      firstRejection := firstRejection j |}
      | _ => j
      end
  | Fulfil1 b =>
      match slot1 j with
      | Waiting => {| slot0 := slot0 j; slot1 := Fulfilled b;
                      firstRejection := firstRejection j |}
      | _ => j
      end
  | Reject0 e =>
      match slot0 j with
      | Waiting => {| slot0 := Rejected e; slot1 := slot1 j;
                      firstRejection := note_rejection (firstRejection j) e |}
      | _ => j
      end
  | Reject1 e =>
      match slot1 j with
      | Waiting => {| slot0 := slot0 j; slot1 := Rejected e;
                      firstRejection := note_rejection (firstRejection j) e |}
      | _ => j
      end
  end.

(** The state of [Promise.all([p0, p1])]: rejected with the first rejection,
    fulfilled with both values (in argument order) once both are there. *)
Definition all_state {A B} (j : Join A B) : PromiseState (A * B) :=
  match firstRejection j with
  | Some e => Rejected e
  | None =>
      match slot0 j, slot1 j with
      | Fulfilled a, Fulfilled b => Fulfilled (a, b)
      | _, _ => Waiting
      end
  end.

Definition promise_all {A B} (schedule : list (Settlement A B))
  : PromiseState (A * B) :=
  all_state (fold_left settle schedule join_start).

(** A loader either still awaits its join or has finished. *)
Inductive Run (A : Type) :=
| Suspended
| Finished (o : Outcome A).

Arguments Suspended {A}.
Arguments Finished {A} o.

(** [const x = await Promise.all([...]); rest], from the trace so far. *)
Definition await_all {A B P} (schedule : list (Settlement A B))
  (t : Trace) (rest : A * B -> M P) : Run P * Trace :=
  match promise_all schedule with
  | Waiting => (Suspended, t)
  | Rejected e => (Finished (Threw e), t)
  | Fulfilled ab => let (o, t') := rest ab t in (Finished o, t')
  end.

(** ** What the routes use from outside these two files

    The helper modules of the repository that the routes import, the
    library function that reads the selected options, the platform's
    lower-casing and the build mode that tiny-invariant reads. *)

Record Imports := {
  (* @weaverse/hydrogen *)
  getSelectedProductOptions : Request -> list SelectedOption;
  (* ~/.server/redirect: [Some r] when the helper throws the response [r] *)
  redirectIfHandleIsLocalized : Request -> string -> ProductData -> option Response;
  redirectIfCombinedListing : Request -> ProductData -> option Response;
  (* ~/utils/combined-listings: COMBINED_LISTINGS_CONFIGS.redirectToFirstVariant *)
  redirectToFirstVariant : bool;
  (* ~/.server/seo *)
  seoPayload_product : ProductData -> string -> SeoConfig;
  seoPayload_home : SeoConfig;
  (* ~/weaverse: [Some e] when the validation throws [e] *)
  validateWeaverseData : WeaverseLoaderData -> option Thrown;
  (* String.prototype.toLowerCase *)
  toLowerCase : string -> string;
  (* tiny-invariant: process.env.NODE_ENV === "production" *)
  isProduction : bool
}.

(** ** The product route's loader *)

(** The streamed value: the pending recommended-products read. *)
Inductive Deferred :=
| PendingRecommended (productId : string).

Record ProductPayload := {
  p_shop : ProductShop;
  p_product : ProductData;
  p_weaverseData : WeaverseLoaderData;
  p_storeDomain : string;
  p_seo : SeoConfig;
  p_recommended : Deferred;
  p_selectedOptions : list SelectedOption
}.

Definition notFound_product : Response :=
  {| status := 404; body := Some "product"; location := None |}.

(** The loader up to its [await]: the handle check and the two reads. *)
Definition loader_begin (env : Imports) (args : LoaderFunctionArgs)
  : M (string * list SelectedOption) :=
  (handle <- invariant (isProduction env) (params_productHandle args)
                       "Missing productHandle param, check route filename" ;;
   let selectedOptions := getSelectedProductOptions env (request args) in
   emit (QueryProduct handle selectedOptions
                      (country (i18n args)) (language (i18n args))) ;;
   emit (LoadPage PRODUCT (Some handle)) ;;
   ret (handle, selectedOptions))%loader.

(** [!product?.id] *)
Definition lacks_id (product : option ProductData) : bool :=
  match product with
  | None => true
  | Some p => Str.is_empty (id p)
  end.

(** The loader after the join. *)
Definition loader_resume (env : Imports) (args : LoaderFunctionArgs)
  (handle : string) (selectedOptions : list SelectedOption)
  (fetched : ProductQuery * WeaverseLoaderData) : M ProductPayload :=
  let (q, weaverseData) := fetched in
  let shop := pq_shop q in
  match pq_product q with
  | None => throw (ThrownResponse notFound_product)
  | Some product =>
      if Str.is_empty (id product) then throw (ThrownResponse notFound_product)
      else
        (run_check (CheckHandleIsLocalized handle)
           (redirectIfHandleIsLocalized env (request args) handle product) ;;
         (if redirectToFirstVariant env
          then run_check CheckCombinedListing
                 (redirectIfCombinedListing env (request args) product)
          else ret tt) ;;
         emit (GetRecommendedProducts (id product)) ;;
         let recommended := PendingRecommended (id product) in
         emit (SeoProduct (url (request args))) ;;
         ret {| p_shop := shop;
                p_product := product;
                p_weaverseData := weaverseData;
                p_storeDomain := primaryDomain_url shop;
                p_seo := seoPayload_product env product (url (request args));
                p_recommended := recommended;
                p_selectedOptions := selectedOptions |})%loader
  end.

(** The product loader run against a schedule of settlements of
    [[storefront.query(...), weaverse.loadPage(...)]]. *)
Definition loader (env : Imports) (args : LoaderFunctionArgs)
  (schedule : list (Settlement ProductQuery WeaverseLoaderData))
  : Run ProductPayload * Trace :=
  match loader_begin env args [] with
  | (Threw e, t) => (Finished (Threw e), t)
  | (Returned (handle, selectedOptions), t) =>
      await_all schedule t (loader_resume env args handle selectedOptions)
  end.

(** ** The home route's loader *)

Record Analytics := {
  pageType : AnalyticsPageType.t
}.

Record HomePayload := {
  h_shop : HomeShop;
  h_weaverseData : WeaverseLoaderData;
  h_analytics : Analytics;
  h_seo : SeoConfig
}.

(** [pathPrefix?.slice(1) || ""] *)
Definition home_locale (args : LoaderFunctionArgs) : string :=
  match pathPrefix (i18n args) with
  | Some p => Str.slice1 p
  | None => ""
  end.

(** The page type the loader asks the page builder for. *)
Definition home_type (env : Imports) (args : LoaderFunctionArgs) : PageType :=
  match params_locale args with
  | Some (String c r) =>
      if negb (String.eqb (toLowerCase env (String c r)) (home_locale args))
      then CUSTOM
      else INDEX
  | _ => INDEX
  end.

Definition home_begin (env : Imports) (args : LoaderFunctionArgs) : M SeoConfig :=
  (let type := home_type env args in
   emit SeoHome ;;
   let seo := seoPayload_home env in
   emit (LoadPage type None) ;;
   emit QueryShop ;;
   ret seo)%loader.

Definition home_resume (env : Imports) (seo : SeoConfig)
  (fetched : WeaverseLoaderData * ShopQuery) : M HomePayload :=
  let (weaverseData, q) := fetched in
  let shop := sq_shop q in
  (emit ValidateWeaverseData ;;
   match validateWeaverseData env weaverseData with
   | Some e => throw e
   | None =>
       ret {| h_shop := shop;
              h_weaverseData := weaverseData;
              h_analytics := {| pageType := AnalyticsPageType.home |};
              h_seo := seo |}
   end)%loader.

(** The home loader run against a schedule of settlements of
    [[weaverse.loadPage(...), storefront.query(...)]]. *)
Definition home_loader (env : Imports) (args : LoaderFunctionArgs)
  (schedule : list (Settlement WeaverseLoaderData ShopQuery))
  : Run HomePayload * Trace :=
  match home_begin env args [] with
  | (Threw e, t) => (Finished (Threw e), t)
  | (Returned seo, t) => await_all schedule t (home_resume env seo)
  end.

(** ** The rest of the product route: [meta] and the analytics view *)

(** [a || b] on strings: the empty string is falsy. *)
Definition or_else (a b : string) : string :=
  if Str.is_empty a then b else a.

(** One entry of the [products] array given to [Analytics.ProductView]. *)
Record ProductViewProduct := {
  pv_id : string;
  pv_title : string;
  pv_price : string;
  pv_vendor : string;
  pv_variantId : string;
  pv_variantTitle : string;
  pv_quantity : nat
}.

(** [{selectedVariant && (<Analytics.ProductView data={{products: [...]}} />)}]:
    the [products] array of the view, when the view is rendered. *)
Definition Product_view (product : ProductData)
  (selectedVariant : option ProductVariant) : option (list ProductViewProduct) :=
  match selectedVariant with
  | None => None
  | Some variant =>
      Some [ {| pv_id := id product;
                pv_title := title product;
                pv_price := or_else (priceAmount variant) "0";
                pv_vendor := vendor product;
                pv_variantId := or_else (variantId variant) "";
                pv_variantTitle := or_else (variantTitle variant) "";
                pv_quantity := 1 |} ]
  end.

(** A route match as [meta] reads it: [match.data], which may be missing,
    and its [seo], which may be missing too. *)
Record RouteData := {
  data_seo : option SeoConfig
}.

Record RouteMatch := {
  match_data : option RouteData
}.

(** [(match.data as any)?.seo] *)
Definition match_seo (m : RouteMatch) : option SeoConfig :=
  match match_data m with
  | Some d => data_seo d
  | None => None
  end.

(** [Boolean(x)] on a value that is an object or undefined. *)
Definition is_defined {A} (x : option A) : bool :=
  match x with Some _ => true | None => false end.

(** The arguments the product route's [meta] spreads into [getSeoMeta]:
    [matches.map((match) => (match.data as any)?.seo).filter(Boolean)]. *)
Definition meta_args (matches : list RouteMatch) : list (option SeoConfig) :=
  filter is_defined (map match_seo matches).

(** The product route's [meta]; Hydrogen's [getSeoMeta] is a parameter. *)
Definition meta {Meta : Type} (getSeoMeta : list (option SeoConfig) -> Meta)
  (matches : list RouteMatch) : Meta :=
  getSeoMeta (meta_args matches).

(** The home route's [meta]: [getSeoMeta(data?.seo as SeoConfig)]. *)
Definition home_meta {Meta : Type} (getSeoMeta : list (option SeoConfig) -> Meta)
  (data : option HomePayload) : Meta :=
  getSeoMeta [match data with Some d => Some (h_seo d) | None => None end].

(** ** Reference instances of the imported helpers *)

Module SpecModel.

Fixpoint has_slash (s : string) : bool :=
  match s with
  | EmptyString => false
  | String c r => Ascii.eqb c "/" || has_slash r
  end.

(** The path up to and including its last slash. *)
Fixpoint dirname (s : string) : string :=
  match s with
  | EmptyString => ""
  | String c r =>
      if has_slash r then String c (dirname r)
      else if Ascii.eqb c "/" then "/" else ""
  end.

Definition lower_byte (c : ascii) : ascii :=
  if URLSearchParams.in_range 65 90 c then ascii_of_nat (nat_of_ascii c + 32) else c.

(** Lower-casing of ASCII letters (locale segments are ASCII). *)
Fixpoint ascii_lower (s : string) : string :=
  match s with
  | EmptyString => ""
  | String c r => String (lower_byte c) (ascii_lower r)
  end.

Definition redirect (target : string) : Response :=
  {| status := 302; body := None; location := Some target |}.

(** The URL of the product page of [h] that keeps the request's origin,
    path prefix and query string. *)
Definition product_url (r : Request) (h : string) : string :=
  req_origin r ++ dirname (req_pathname r) ++ h ++ req_search r.

(** Modelled from the spec: [isCombinedListing] of ~/utils/combined-listings
    is not among the sources.  The spec calls a combined listing a parent
    product that groups child products and gives no test for it; the model
    marks such a product with the tag [combined]. *)
Definition isCombinedListing (p : ProductData) : bool :=
  existsb (String.eqb "combined") (tags p).

(** Modelled from the spec: [redirectIfHandleIsLocalized] of
    ~/.server/redirect is not among the sources.  If the product's canonical
    handle differs from the requested handle, respond with a redirect to
    the canonical URL, preserving query parameters. *)
Definition redirectIfHandleIsLocalized (r : Request) (requested : string)
  (p : ProductData) : option Response :=
  if String.eqb requested (handle p) then None
  else Some (redirect (product_url r (handle p))).

(** Modelled from the spec: [redirectIfCombinedListing] of ~/.server/redirect
    is not among the sources.  If the product is a combined listing,
    redirect to the first child variant's canonical URL. *)
Definition redirectIfCombinedListing (r : Request) (p : ProductData)
  : option Response :=
  if isCombinedListing p then
    match variants p with
    | v :: _ => Some (redirect (product_url r (variantProductHandle v)))
    | [] => None
    end
  else None.

(** Modelled from the spec: [validateWeaverseData] of ~/weaverse is not among
    the sources.  Page content must be present (non-null, non-empty);
    otherwise the request fails. *)
Definition validateWeaverseData (d : WeaverseLoaderData) : option Thrown :=
  match d with
  | None => Some (ThrownError "page content absent")
  | Some EmptyString => Some (ThrownError "page content empty")
  | Some _ => None
  end.

(** Modelled from the spec: [getSelectedProductOptions] parses the selected
    options from the request's query string into name-value pairs. *)
Definition getSelectedProductOptions (r : Request) : list SelectedOption :=
  map (fun p => {| name := fst p; value := snd p |})
      (URLSearchParams.of_string (req_search r)).

Definition seoPayload_product (p : ProductData) (u : string) : SeoConfig :=
  {| seo_title := title p; seo_description := vendor p; seo_url := u |}.

Definition seoPayload_home : SeoConfig :=
  {| seo_title := "Home"; seo_description := ""; seo_url := "/" |}.

(** The helpers above, for a build mode and a value of
    [redirectToFirstVariant]. *)
Definition imports_in (production flag : bool) : Imports :=
  Build_Imports getSelectedProductOptions
                redirectIfHandleIsLocalized
                redirectIfCombinedListing
                flag
                seoPayload_product
                seoPayload_home
                validateWeaverseData
                ascii_lower
                production.

(** The same in a development build. *)
Definition imports (flag : bool) : Imports := imports_in false flag.

(** Hydrogen's [useOptimisticVariant] when no navigation is pending: the
    loader's selected variant. *)
Definition useOptimisticVariant (selected : option ProductVariant)
  (adjacent : list ProductVariant) : option ProductVariant := selected.

Definition getAdjacentAndFirstAvailableVariants (p : ProductData)
  : list ProductVariant := variants p.

End SpecModel.

(** ** Sample data *)

Module Sample.

Definition large_dark : ProductVariant :=
  {| variantId := "gid://shopify/ProductVariant/1";
     variantTitle := "Large / Dark";
     priceAmount := "24.00";
     availableForSale := true;
     variantProductHandle := "choco-box-dark";
     selectedOptions := [ {| name := "Size"; value := "Large" |};
                          {| name := "Flavor"; value := "Dark" |} ] |}.

Definition no_options : ProductVariant :=
  {| variantId := "gid://shopify/ProductVariant/2";
     variantTitle := "Default Title";
     priceAmount := "9.00";
     availableForSale := true;
     variantProductHandle := "gift-card";
     selectedOptions := [] |}.

Definition choco_box (tgs : list string) (h : string) : ProductData :=
  {| id := "gid://shopify/Product/7";
     handle := h;
     title := "Choco Box";
     vendor := "Tastee";
     tags := tgs;
     variants := [large_dark];
     selectedOrFirstAvailableVariant := Some large_dark |}.

Definition shop : ProductShop :=
  {| shopName := "Tastee"; primaryDomain_url := "https://tastee.example" |}.

Definition home_shop : ShopQuery :=
  {| sq_shop := {| home_shopName := "Tastee"; home_shopDescription := "Treats" |} |}.

Definition product_request (path qs : string) : Request :=
  {| req_origin := "https://tastee.example"; req_pathname := path; req_search := qs |}.

Definition product_args (path qs h : string) (prefix : option string)
  : LoaderFunctionArgs :=
  {| params_productHandle := Some h;
     params_locale := None;
     request := product_request path qs;
     i18n := {| country := "FR"; language := "FR"; pathPrefix := prefix |} |}.

Definition home_args (seg prefix : option string) : LoaderFunctionArgs :=
  {| params_productHandle := None;
     params_locale := seg;
     request := product_request "/" "";
     i18n := {| country := "FR"; language := "FR"; pathPrefix := prefix |} |}.

Definition at_url (path q : string) : Location :=
  {| pathname := path; query := q; hash := "" |}.

End Sample.

(** ** Notions used to state and prove the properties *)

Import URLSearchParams.

(** The two separators of the serialized form. *)
Definition is_sep (c : ascii) : bool := Ascii.eqb c "&" || Ascii.eqb c "=".

(** How many tuples carry the name. *)
Definition occurrences (n : string) (l : t) : nat :=
  length (filter (fun p => String.eqb (fst p) n) l).

(** Overwrite the value of every tuple named [n]. *)
Definition overwrite (n v : string) (p : string * string) : string * string :=
  if String.eqb (fst p) n then (n, v) else p.

(** What the tuple [p] becomes when the options are written in turn. *)
Definition overwriteAll (options : list SelectedOption) (p : string * string)
  : string * string :=
  fold_left (fun acc o => overwrite (name o) (value o) acc) options p.

(** Whether a tuple's name is none of the option names. *)
Definition unrelated (options : list SelectedOption) (p : string * string) : bool :=
  negb (existsb (fun o => String.eqb (name o) (fst p)) options).

(** An option as a parameter tuple. *)
Definition option_tuple (o : SelectedOption) : string * string :=
  (name o, value o).

(** The bytes a serialized query is made of. *)
Definition is_query_byte (c : ascii) : bool :=
  is_plain c || Ascii.eqb c "+" || Ascii.eqb c "%"
  || Ascii.eqb c "=" || Ascii.eqb c "&".

(** No option name is given two values. *)
Definition consistent (options : list SelectedOption) : Prop :=
  forall o o', In o options -> In o' options ->
               name o = name o' -> value o = value o'.

(** * Properties *)

(** ** The loaders *)

Lemma loader_begin_ok env args c r :
  params_productHandle args = Some (String c r) ->
  loader_begin env args [] =
  (Returned (String c r, getSelectedProductOptions env (request args)),
   [QueryProduct (String c r) (getSelectedProductOptions env (request args))
                 (country (i18n args)) (language (i18n args));
    LoadPage PRODUCT (Some (String c r))]).
Proof.
  intros H. unfold loader_begin, invariant. rewrite H. reflexivity.
Qed.

Lemma loader_joined env args c r schedule fetched :
  params_productHandle args = Some (String c r) ->
  promise_all schedule = Fulfilled fetched ->
  loader env args schedule =
  let (o, t) :=
    loader_resume env args (String c r)
      (getSelectedProductOptions env (request args)) fetched
      [QueryProduct (String c r) (getSelectedProductOptions env (request args))
                    (country (i18n args)) (language (i18n args));
       LoadPage PRODUCT (Some (String c r))]
  in (Finished o, t).
Proof.
  intros Hh Hs. unfold loader. rewrite (loader_begin_ok env args c r Hh).
  unfold await_all. rewrite Hs. reflexivity.
Qed.

Lemma home_joined env args schedule fetched :
  promise_all schedule = Fulfilled fetched ->
  home_loader env args schedule =
  let (o, t) :=
    home_resume env (seoPayload_home env) fetched
      [SeoHome; LoadPage (home_type env args) None; QueryShop]
  in (Finished o, t).
Proof.
  intros Hs. unfold home_loader, await_all. cbn. rewrite Hs. reflexivity.
Qed.

(** A trace of at most four events, none of them the combined-listing
    check, cannot be split around that check. *)
Ltac no_combined_check t1 :=
  let H := fresh "H" in
  intros H;
  destruct t1 as [|? [|? [|? [|? ?]]]]; cbn in H;
  try discriminate H; inversion H.

(** Whatever the run, a combined-listing check is preceded by the
    localized-handle check. *)
Lemma handle_check_precedes_combined_check :
  forall env args schedule t1 t2,
    snd (loader env args schedule) = t1 ++ CheckCombinedListing :: t2 ->
    exists h, In (CheckHandleIsLocalized h) t1.
Proof.
  intros env args schedule t1 t2.
  unfold loader, loader_begin, invariant, await_all.
  destruct (params_productHandle args) as [[|c r]|]; cbn.
  1,3: no_combined_check t1.
  destruct (promise_all schedule) as [|[q w]|e]; cbn.
  1,3: no_combined_check t1.
  unfold loader_resume, run_check.
  destruct (pq_product q) as [p|]; cbn; [|no_combined_check t1].
  destruct (Str.is_empty (id p)); cbn; [no_combined_check t1|].
  destruct (redirectIfHandleIsLocalized env (request args) (String c r) p); cbn;
    [no_combined_check t1|].
  destruct (redirectToFirstVariant env); cbn;
    [destruct (redirectIfCombinedListing env (request args) p); cbn|];
    intros H;
    destruct t1 as [|e1 [|e2 [|e3 t1]]]; cbn in H; try discriminate H;
    inversion H; subst;
    exists (String c r); right; right; left; reflexivity.
Qed.

(** C1.  When the localized-handle helper and the combined-listing helper
    would both redirect (and [redirectToFirstVariant] is on), the loader
    ends with the localized-handle redirect and never reaches the
    combined-listing check; in every run a combined-listing check comes
    after the localized-handle check. *)
Theorem localized_redirect_before_combined_listing :
  forall env args schedule q w c r p r1 r2,
    params_productHandle args = Some (String c r) ->
    promise_all schedule = Fulfilled (q, w) ->
    pq_product q = Some p ->
    Str.is_empty (id p) = false ->
    redirectIfHandleIsLocalized env (request args) (String c r) p = Some r1 ->
    redirectToFirstVariant env = true ->
    redirectIfCombinedListing env (request args) p = Some r2 ->
    loader env args schedule =
    (Finished (Threw (ThrownResponse r1)),
     [QueryProduct (String c r) (getSelectedProductOptions env (request args))
                   (country (i18n args)) (language (i18n args));
      LoadPage PRODUCT (Some (String c r));
      CheckHandleIsLocalized (String c r)])
    /\ ~ In CheckCombinedListing (snd (loader env args schedule))
    /\ (forall schedule' t1 t2,
           snd (loader env args schedule') = t1 ++ CheckCombinedListing :: t2 ->
           exists h, In (CheckHandleIsLocalized h) t1).
Proof.
  intros env args schedule q w c r p r1 r2 Hh Hs Hp Hid H1 Hflag H2.
  rewrite (loader_joined env args c r schedule (q, w) Hh Hs).
  unfold loader_resume. rewrite Hp, Hid. unfold run_check.
  rewrite H1. cbn. split; [reflexivity|]. split.
  - intros [H|[H|[H|[]]]]; discriminate H.
  - apply handle_check_precedes_combined_check.
Qed.

Lemma localized_redirect_before_combined_listing_witness :
  let env := SpecModel.imports true in
  let args := Sample.product_args "/fr/products/choco-box" "?Size=Large"
                                  "choco-box" (Some "/fr") in
  let q := {| pq_shop := Sample.shop;
              pq_product := Some (Sample.choco_box ["combined"] "boite-choco") |} in
  fst (loader env args [Fulfil1 None; Fulfil0 q]) =
  Finished (Threw (ThrownResponse
    (SpecModel.redirect "https://tastee.example/fr/products/boite-choco?Size=Large")))
  /\ redirectIfCombinedListing env (request args)
       (Sample.choco_box ["combined"] "boite-choco") =
     Some (SpecModel.redirect
             "https://tastee.example/fr/products/choco-box-dark?Size=Large").
Proof.
  intros env args q. split; [|reflexivity].
  pose proof (localized_redirect_before_combined_listing
                env args [Fulfil1 None; Fulfil0 q] q None
                "c"%char "hoco-box" (Sample.choco_box ["combined"] "boite-choco")
                (SpecModel.redirect
                   "https://tastee.example/fr/products/boite-choco?Size=Large")
                (SpecModel.redirect
                   "https://tastee.example/fr/products/choco-box-dark?Size=Large")
                eq_refl eq_refl eq_refl eq_refl eq_refl eq_refl eq_refl) as [H _].
  rewrite H. reflexivity.
Defined.

(** C8.  A product without identity ends the request with the 404 response;
    the only effects started are the two awaited reads, so neither the SEO
    payload nor the recommended-products read is started. *)
Theorem product_lookup_miss_is_not_found :
  forall env args schedule q w c r,
    params_productHandle args = Some (String c r) ->
    promise_all schedule = Fulfilled (q, w) ->
    lacks_id (pq_product q) = true ->
    loader env args schedule =
    (Finished (Threw (ThrownResponse notFound_product)),
     [QueryProduct (String c r) (getSelectedProductOptions env (request args))
                   (country (i18n args)) (language (i18n args));
      LoadPage PRODUCT (Some (String c r))])
    /\ status notFound_product = 404
    /\ (forall u, ~ In (SeoProduct u) (snd (loader env args schedule)))
    /\ (forall pid, ~ In (GetRecommendedProducts pid) (snd (loader env args schedule))).
Proof.
  intros env args schedule q w c r Hh Hs Hid.
  assert (E : loader env args schedule =
              (Finished (Threw (ThrownResponse notFound_product)),
               [QueryProduct (String c r)
                             (getSelectedProductOptions env (request args))
                             (country (i18n args)) (language (i18n args));
                LoadPage PRODUCT (Some (String c r))])).
  { rewrite (loader_joined env args c r schedule (q, w) Hh Hs).
    unfold loader_resume. unfold lacks_id in Hid.
    destruct (pq_product q) as [p|]; [rewrite Hid|]; reflexivity. }
  rewrite E. cbn. repeat split.
  - intros u [H|[H|[]]]; discriminate H.
  - intros pid [H|[H|[]]]; discriminate H.
Qed.

Lemma product_lookup_miss_is_not_found_witness :
  let env := SpecModel.imports true in
  let args := Sample.product_args "/products/ghost" "" "ghost" None in
  let q := {| pq_shop := Sample.shop; pq_product := None |} in
  lacks_id (pq_product q) = true /\
  loader env args [Fulfil0 q; Fulfil1 (Some "page")] =
  (Finished (Threw (ThrownResponse notFound_product)),
   [QueryProduct "ghost" [] "FR" "FR"; LoadPage PRODUCT (Some "ghost")]).
Proof.
  intros env args q. split; [reflexivity|].
  exact (proj1 (product_lookup_miss_is_not_found
                  env args [Fulfil0 q; Fulfil1 (Some "page")] q (Some "page")
                  "g"%char "host" eq_refl eq_refl eq_refl)).
Defined.

(** C3, as amended.  Every payload the home loader returns carries the
    analytics page type [home], whichever page type ([INDEX] or [CUSTOM])
    it asked the page builder for. *)
Theorem home_payload_always_reports_home :
  forall env args schedule payload t,
    home_loader env args schedule = (Finished (Returned payload), t) ->
    pageType (h_analytics payload) = AnalyticsPageType.home
    /\ In (LoadPage (home_type env args) None) t.
Proof.
  intros env args schedule payload t.
  unfold home_loader, await_all. cbn.
  destruct (promise_all schedule) as [|[w q]|e]; cbn; try discriminate.
  destruct (validateWeaverseData env w); cbn; intros H; inversion H; subst.
  cbn. split; [reflexivity|]. right; left; reflexivity.
Qed.

Lemma home_payload_always_reports_home_witness :
  let env := SpecModel.imports true in
  let args := Sample.home_args (Some "fr") (Some "/fr") in
  let schedule := [Fulfil0 (Some "page"); Fulfil1 Sample.home_shop] in
  let payload := {| h_shop := sq_shop Sample.home_shop;
                    h_weaverseData := Some "page";
                    h_analytics := {| pageType := AnalyticsPageType.home |};
                    h_seo := SpecModel.seoPayload_home |} in
  let t := [SeoHome; LoadPage INDEX None; QueryShop; ValidateWeaverseData] in
  home_loader env args schedule = (Finished (Returned payload), t)
  /\ pageType (h_analytics payload) = AnalyticsPageType.home
  /\ In (LoadPage (home_type env args) None) t.
Proof.
  intros env args schedule payload t. split; [reflexivity|].
  exact (home_payload_always_reports_home env args schedule payload t eq_refl).
Defined.

(** C3, counterexample.  For the route segment [fr-custom] under the active
    locale [fr] the page type is [CUSTOM], and the payload still carries the
    analytics page type [home]. *)
Lemma home_custom_page_reports_home :
  let env := SpecModel.imports true in
  let args := Sample.home_args (Some "fr-custom") (Some "/fr") in
  home_type env args = CUSTOM
  /\ home_loader env args [Fulfil0 (Some "page"); Fulfil1 Sample.home_shop] =
     (Finished (Returned
        {| h_shop := sq_shop Sample.home_shop;
           h_weaverseData := Some "page";
           h_analytics := {| pageType := AnalyticsPageType.home |};
           h_seo := SpecModel.seoPayload_home |}),
      [SeoHome; LoadPage CUSTOM None; QueryShop; ValidateWeaverseData])
  /\ ~ (forall payload t,
          home_loader env args [Fulfil0 (Some "page"); Fulfil1 Sample.home_shop] =
          (Finished (Returned payload), t) ->
          pageType (h_analytics payload) = AnalyticsPageType.home ->
          home_type env args = INDEX).
Proof.
  intros env args. split; [reflexivity|]. split; [reflexivity|].
  intros H. specialize (H _ _ eq_refl eq_refl). discriminate H.
Qed.

(** C4, counterexample.  The product loader returns a payload although the
    page content is absent. *)
Lemma product_loader_returns_without_content :
  let env := SpecModel.imports true in
  let args := Sample.product_args "/products/choco-box" "" "choco-box" None in
  let q := {| pq_shop := Sample.shop;
              pq_product := Some (Sample.choco_box [] "choco-box") |} in
  exists payload t,
    loader env args [Fulfil0 q; Fulfil1 None] = (Finished (Returned payload), t)
    /\ p_weaverseData payload = None.
Proof.
  intros env args q. eexists. eexists. split; reflexivity.
Qed.

(** C4, as amended.  The home loader fails when the page content is absent
    or empty (with the validation helper as the spec describes it); the
    product loader has no such step: once the product has an identity and
    neither redirect fires, it returns a payload carrying whatever content
    was loaded. *)
Theorem content_is_required_on_home_only :
  (forall env args schedule w q,
      validateWeaverseData env = SpecModel.validateWeaverseData ->
      promise_all schedule = Fulfilled (w, q) ->
      w = None \/ w = Some "" ->
      exists e t, home_loader env args schedule = (Finished (Threw e), t))
  /\
  (forall env args schedule q w c r p,
      params_productHandle args = Some (String c r) ->
      promise_all schedule = Fulfilled (q, w) ->
      pq_product q = Some p ->
      Str.is_empty (id p) = false ->
      redirectIfHandleIsLocalized env (request args) (String c r) p = None ->
      redirectToFirstVariant env = false
      \/ redirectIfCombinedListing env (request args) p = None ->
      exists payload t,
        loader env args schedule = (Finished (Returned payload), t)
        /\ p_weaverseData payload = w).
Proof.
  split.
  - intros env args schedule w q Hv Hs Hw.
    rewrite (home_joined env args schedule (w, q) Hs).
    unfold home_resume. cbn. rewrite Hv.
    destruct Hw as [-> | ->]; cbn; eexists; eexists; reflexivity.
  - intros env args schedule q w c r p Hh Hs Hp Hid H1 H2.
    rewrite (loader_joined env args c r schedule (q, w) Hh Hs).
    unfold loader_resume. rewrite Hp, Hid. unfold run_check. rewrite H1.
    destruct H2 as [H2 | H2].
    + rewrite H2. cbn. eexists. eexists. split; reflexivity.
    + destruct (redirectToFirstVariant env); [rewrite H2|]; cbn;
        eexists; eexists; split; reflexivity.
Qed.

Lemma content_is_required_on_home_only_witness :
  let env := SpecModel.imports false in
  (exists e t,
      home_loader env (Sample.home_args None (Some "/fr"))
                  [Fulfil1 Sample.home_shop; Fulfil0 None] = (Finished (Threw e), t))
  /\
  (exists payload t,
      loader env (Sample.product_args "/products/choco-box" "" "choco-box" None)
             [Fulfil0 {| pq_shop := Sample.shop;
                         pq_product := Some (Sample.choco_box [] "choco-box") |};
              Fulfil1 (Some "")] = (Finished (Returned payload), t)
      /\ p_weaverseData payload = Some "").
Proof.
  intros env. split.
  - exact (proj1 content_is_required_on_home_only env
             (Sample.home_args None (Some "/fr"))
             [Fulfil1 Sample.home_shop; Fulfil0 None] None Sample.home_shop
             eq_refl eq_refl (or_introl eq_refl)).
  - exact (proj2 content_is_required_on_home_only env
             (Sample.product_args "/products/choco-box" "" "choco-box" None)
             [Fulfil0 {| pq_shop := Sample.shop;
                         pq_product := Some (Sample.choco_box [] "choco-box") |};
              Fulfil1 (Some "")]
             {| pq_shop := Sample.shop;
                pq_product := Some (Sample.choco_box [] "choco-box") |}
             (Some "") "c"%char "hoco-box" (Sample.choco_box [] "choco-box")
             eq_refl eq_refl eq_refl eq_refl eq_refl (or_introl eq_refl)).
Defined.

(** ** The join, once settled *)

Lemma all_state_settled {A B} (j : Join A B) (s : Settlement A B) :
  all_state j <> Waiting -> all_state (settle j s) = all_state j.
Proof.
  unfold all_state.
  destruct j as [s0 s1 [e0|]]; cbn.
  - intros _. destruct s, s0, s1; reflexivity.
  - destruct s0, s1; cbn; try congruence; intros _; destruct s; reflexivity.
Qed.

Lemma fold_settle_settled {A B} (schedule : list (Settlement A B)) :
  forall j, all_state j <> Waiting ->
            all_state (fold_left settle schedule j) = all_state j.
Proof.
  induction schedule as [|s rest IH]; intros j H; [reflexivity|].
  cbn. rewrite IH; rewrite all_state_settled; auto.
Qed.

(** [Promise.all] settles once: later settlements change nothing. *)
Lemma promise_all_settled {A B} (s1 s2 : list (Settlement A B)) :
  promise_all s1 <> Waiting -> promise_all (s1 ++ s2) = promise_all s1.
Proof.
  unfold promise_all. rewrite fold_left_app. apply fold_settle_settled.
Qed.

(** C9.  Once both reads have fulfilled, in either completion order and
    whatever settles later, each loader has finished, and its outcome and
    trace are those of the code after the [await] applied to the two fetched
    values: both orders give the same result.  After one completion alone
    the loader is still suspended at the join with only the effects started
    before the [await]: nothing after the [await] has run.  Any two
    schedules that deliver the same pair of values give the same result. *)
Theorem join_is_order_independent :
  forall env args,
    (forall c r,
        params_productHandle args = Some (String c r) ->
        let selectedOptions := getSelectedProductOptions env (request args) in
        let reads :=
          [QueryProduct (String c r) selectedOptions
                        (country (i18n args)) (language (i18n args));
           LoadPage PRODUCT (Some (String c r))] in
        loader env args [] = (Suspended, reads)
        /\ forall q w,
             let after_await :=
               loader_resume env args (String c r) selectedOptions (q, w) reads in
             loader env args [Fulfil0 q] = (Suspended, reads)
             /\ loader env args [Fulfil1 w] = (Suspended, reads)
             /\ forall rest,
                  loader env args (Fulfil0 q :: Fulfil1 w :: rest) =
                  (Finished (fst after_await), snd after_await)
                  /\ loader env args (Fulfil1 w :: Fulfil0 q :: rest) =
                     (Finished (fst after_await), snd after_await))
    /\ (let reads := [SeoHome; LoadPage (home_type env args) None; QueryShop] in
        home_loader env args [] = (Suspended, reads)
        /\ forall w q,
             let after_await :=
               home_resume env (seoPayload_home env) (w, q) reads in
             home_loader env args [Fulfil0 w] = (Suspended, reads)
             /\ home_loader env args [Fulfil1 q] = (Suspended, reads)
             /\ forall rest,
                  home_loader env args (Fulfil0 w :: Fulfil1 q :: rest) =
                  (Finished (fst after_await), snd after_await)
                  /\ home_loader env args (Fulfil1 q :: Fulfil0 w :: rest) =
                     (Finished (fst after_await), snd after_await))
    /\ (forall q w,
           loader env args [Fulfil0 q; Fulfil1 w] = loader env args [Fulfil1 w; Fulfil0 q]
           /\ loader env args [Fulfil0 q] = loader env args []
           /\ loader env args [Fulfil1 w] = loader env args [])
    /\ (forall c r, params_productHandle args = Some (String c r) ->
                    fst (loader env args []) = Suspended)
    /\ (forall w q,
           home_loader env args [Fulfil0 w; Fulfil1 q] =
           home_loader env args [Fulfil1 q; Fulfil0 w]
           /\ home_loader env args [Fulfil0 w] = home_loader env args []
           /\ home_loader env args [Fulfil1 q] = home_loader env args [])
    /\ fst (home_loader env args []) = Suspended
    /\ (forall schedule schedule' fetched,
           promise_all schedule = Fulfilled fetched ->
           promise_all schedule' = Fulfilled fetched ->
           loader env args schedule = loader env args schedule')
    /\ (forall schedule schedule' fetched,
           promise_all schedule = Fulfilled fetched ->
           promise_all schedule' = Fulfilled fetched ->
           home_loader env args schedule = home_loader env args schedule').
Proof.
  intros env args.
  assert (J : forall (A B : Type) (a : A) (b : B) rest,
             promise_all (Fulfil0 a :: Fulfil1 b :: rest) = Fulfilled (a, b)
             /\ promise_all (Fulfil1 b :: Fulfil0 a :: rest) = Fulfilled (a, b)).
  { intros A B a b rest. split.
    - change (Fulfil0 a :: Fulfil1 b :: rest)
        with ([Fulfil0 a; Fulfil1 b] ++ rest).
      rewrite promise_all_settled; [reflexivity | discriminate].
    - change (Fulfil1 b :: Fulfil0 a :: rest)
        with ([Fulfil1 b; Fulfil0 a] ++ rest).
      rewrite promise_all_settled; [reflexivity | discriminate]. }
  split; [|split].
  - intros c r Hh selectedOptions reads.
    split; [unfold loader; rewrite (loader_begin_ok env args c r Hh); reflexivity|].
    intros q w after_await.
    split; [unfold loader; rewrite (loader_begin_ok env args c r Hh); reflexivity|].
    split; [unfold loader; rewrite (loader_begin_ok env args c r Hh); reflexivity|].
    intros rest. destruct (J _ _ q w rest) as [J0 J1].
    rewrite (loader_joined env args c r _ (q, w) Hh J0).
    rewrite (loader_joined env args c r _ (q, w) Hh J1).
    fold selectedOptions reads after_await.
    destruct after_await as [o t]. split; reflexivity.
  - intros reads. split; [reflexivity|].
    intros w q after_await. split; [reflexivity|]. split; [reflexivity|].
    intros rest. destruct (J _ _ w q rest) as [J0 J1].
    rewrite (home_joined env args _ (w, q) J0).
    rewrite (home_joined env args _ (w, q) J1).
    fold reads after_await.
    destruct after_await as [o t]. split; reflexivity.
  - split; [intros q w; repeat split|].
    split; [intros c r H; unfold loader;
            rewrite (loader_begin_ok env args c r H); reflexivity|].
    split; [intros w q; repeat split|].
    split; [reflexivity|].
    split.
    + intros s s' f Hs Hs'. unfold loader, await_all. now rewrite Hs, Hs'.
    + intros s s' f Hs Hs'. unfold home_loader, await_all. now rewrite Hs, Hs'.
Qed.

Lemma join_is_order_independent_witness :
  let env := SpecModel.imports true in
  let args := Sample.product_args "/products/choco-box" "" "choco-box" None in
  let q := {| pq_shop := Sample.shop;
              pq_product := Some (Sample.choco_box [] "choco-box") |} in
  let w := Some "page" in
  let payload :=
    {| p_shop := Sample.shop;
       p_product := Sample.choco_box [] "choco-box";
       p_weaverseData := Some "page";
       p_storeDomain := "https://tastee.example";
       p_seo := SpecModel.seoPayload_product (Sample.choco_box [] "choco-box")
                  "https://tastee.example/products/choco-box";
       p_recommended := PendingRecommended "gid://shopify/Product/7";
       p_selectedOptions := [] |} in
  params_productHandle args = Some "choco-box"
  /\ fst (loader env args [Fulfil0 q]) = Suspended
  /\ fst (loader env args [Fulfil1 w]) = Suspended
  /\ fst (loader env args [Fulfil0 q; Fulfil1 w]) = Finished (Returned payload)
  /\ fst (loader env args [Fulfil1 w; Fulfil0 q]) = Finished (Returned payload)
  /\ snd (loader env args [Fulfil0 q; Fulfil1 w]) =
     snd (loader env args [Fulfil1 w; Fulfil0 q]).
Proof.
  intros env args q w payload.
  destruct (proj1 (join_is_order_independent env args)
                  "c"%char "hoco-box" eq_refl) as [_ H].
  destruct (H q w) as [H0 [H1 H2]]. destruct (H2 []) as [H01 H10].
  split; [reflexivity|].
  split; [exact (f_equal fst H0)|].
  split; [exact (f_equal fst H1)|].
  split; [exact (f_equal fst H01)|].
  split; [exact (f_equal fst H10)|].
  exact (eq_trans (f_equal snd H01) (eq_sym (f_equal snd H10))).
Defined.

(** ** URL synchronisation: the decision *)

Lemma differs_true_iff cur v :
  differs cur v = true <-> cur <> Some v.
Proof.
  unfold differs. destruct cur as [c|].
  - rewrite negb_true_iff, String.eqb_neq. split; congruence.
  - split; [discriminate | reflexivity].
Qed.

Lemma anyOptionDiffers_true_iff params options :
  anyOptionDiffers params options = true <->
  exists o, In o options
            /\ URLSearchParams.get (name o) params <> Some (value o).
Proof.
  induction options as [|o rest IH]; cbn.
  - split; [discriminate | intros [o [[] _]]].
  - destruct (differs (URLSearchParams.get (name o) params) (value o)) eqn:E.
    + split; [intros _ | reflexivity].
      exists o. split; [left; reflexivity | now apply differs_true_iff].
    + rewrite IH. split.
      * intros [o' [Hin Hd]]. exists o'. split; [right; exact Hin | exact Hd].
      * intros [o' [[<- | Hin] Hd]].
        -- apply differs_true_iff in Hd. congruence.
        -- exists o'. split; assumption.
Qed.

(** C6.  For a combined-listing product the effect returns at its first
    guard: it makes no history call and the location stays as it is,
    whatever the query string and the selected variant. *)
Theorem combined_listing_never_synchronized :
  forall isCombinedListing getAdjacent useOptimisticVariant product loc,
    isCombinedListing product = true ->
    Product isCombinedListing getAdjacent useOptimisticVariant product loc = None
    /\ (forall selectedVariant,
           syncEffect (isCombinedListing product) selectedVariant loc = None
           /\ synchronize (isCombinedListing product) selectedVariant loc = loc).
Proof.
  intros isCL gA uOV product loc H. unfold Product, synchronize. rewrite H.
  split; [|intros sv; split]; unfold syncEffect;
    try destruct (Product_selectedVariant gA uOV product);
    try destruct sv; reflexivity.
Qed.

Lemma combined_listing_never_synchronized_witness :
  SpecModel.isCombinedListing (Sample.choco_box ["combined"] "choco-box") = true
  /\ Product SpecModel.isCombinedListing
             SpecModel.getAdjacentAndFirstAvailableVariants
             SpecModel.useOptimisticVariant
             (Sample.choco_box ["combined"] "choco-box")
             (Sample.at_url "/products/choco-box" "Size=Small") = None.
Proof.
  split; [reflexivity|].
  exact (proj1 (combined_listing_never_synchronized
                  SpecModel.isCombinedListing
                  SpecModel.getAdjacentAndFirstAvailableVariants
                  SpecModel.useOptimisticVariant
                  (Sample.choco_box ["combined"] "choco-box")
                  (Sample.at_url "/products/choco-box" "Size=Small") eq_refl)).
Defined.

(** C7.  The effect marks an update as needed exactly when the location has
    no query string or some option of the selected variant differs from the
    URL's value for its name (an absent name differs); when it is not marked,
    no history call is made. *)
Theorem needsUpdate_exactly_when :
  forall variant loc,
    (needsUpdate loc (selectedOptions variant) = true <->
     search loc = ""
     \/ exists o, In o (selectedOptions variant)
                  /\ URLSearchParams.get (name o)
                       (URLSearchParams.of_string (search loc)) <> Some (value o))
    /\ (needsUpdate loc (selectedOptions variant) = false ->
        syncEffect false (Some variant) loc = None).
Proof.
  intros variant loc. split.
  - unfold needsUpdate. destruct (String.eqb (search loc) "") eqn:E.
    + apply String.eqb_eq in E. split; [intros _; left; exact E | reflexivity].
    + apply String.eqb_neq in E. rewrite anyOptionDiffers_true_iff.
      split; [intros H; right; exact H | intros [H | H]; [contradiction | exact H]].
  - intros H. unfold syncEffect. rewrite H. reflexivity.
Qed.

Lemma needsUpdate_exactly_when_witness :
  needsUpdate (Sample.at_url "/products/choco-box" "Flavor=Dark&Size=Large")
              (selectedOptions Sample.large_dark) = false
  /\ syncEffect false (Some Sample.large_dark)
                (Sample.at_url "/products/choco-box" "Flavor=Dark&Size=Large") = None.
Proof.
  split; [reflexivity|].
  exact (proj2 (needsUpdate_exactly_when Sample.large_dark
                  (Sample.at_url "/products/choco-box" "Flavor=Dark&Size=Large"))
               eq_refl).
Defined.

(** C10.  With a selected variant that has no options the effect makes no
    history call: under a query string the update is not marked as needed;
    without one it is marked, but the rebuilt query string is the empty
    current one and the last guard holds the call back. *)
Theorem no_options_never_rewrites :
  forall variant loc,
    selectedOptions variant = [] ->
    syncEffect false (Some variant) loc = None
    /\ (search loc <> "" -> needsUpdate loc (selectedOptions variant) = false)
    /\ (search loc = "" ->
        needsUpdate loc (selectedOptions variant) = true
        /\ newSearch loc (selectedOptions variant) = Str.slice1 (search loc)).
Proof.
  intros variant loc H.
  assert (A : search loc <> "" -> needsUpdate loc (selectedOptions variant) = false).
  { intros Hs. unfold needsUpdate. rewrite H.
    apply String.eqb_neq in Hs. rewrite Hs. reflexivity. }
  assert (B : search loc = "" ->
              needsUpdate loc (selectedOptions variant) = true
              /\ newSearch loc (selectedOptions variant) = Str.slice1 (search loc)).
  { intros Hs. unfold needsUpdate, newSearch. rewrite H, Hs. split; reflexivity. }
  split; [|split; assumption].
  unfold syncEffect.
  destruct (string_dec (search loc) "") as [Hs | Hs].
  - destruct (B Hs) as [-> ->]. rewrite String.eqb_refl. reflexivity.
  - rewrite (A Hs). reflexivity.
Qed.

Lemma no_options_never_rewrites_witness :
  selectedOptions Sample.no_options = []
  /\ syncEffect false (Some Sample.no_options)
                (Sample.at_url "/products/gift-card" "") = None
  /\ syncEffect false (Some Sample.no_options)
                (Sample.at_url "/products/gift-card" "ref=abc") = None.
Proof.
  split; [reflexivity|]. split.
  - exact (proj1 (no_options_never_rewrites Sample.no_options
                    (Sample.at_url "/products/gift-card" "") eq_refl)).
  - exact (proj1 (no_options_never_rewrites Sample.no_options
                    (Sample.at_url "/products/gift-card" "ref=abc") eq_refl)).
Defined.

(** ** URLSearchParams: parsing what was serialized *)

Lemma all_app p (a b : string) :
  Str.all p (a ++ b) = Str.all p a && Str.all p b.
Proof.
  induction a as [|x a IH]; cbn; [reflexivity|].
  rewrite IH. now rewrite andb_assoc.
Qed.

Lemma plus_to_space_app (a b : string) :
  plus_to_space (a ++ b) = (plus_to_space a ++ plus_to_space b)%string.
Proof. induction a as [|x a IH]; cbn; [reflexivity | now rewrite IH]. Qed.

Lemma decode_encode_byte c rest :
  percent_decode (plus_to_space (encode_byte c) ++ rest) =
  String c (percent_decode rest).
Proof.
  destruct c as [[] [] [] [] [] [] [] []]; reflexivity.
Qed.

Lemma encode_byte_no_sep c :
  Str.all (fun x => negb (is_sep x)) (encode_byte c) = true.
Proof.
  destruct c as [[] [] [] [] [] [] [] []]; reflexivity.
Qed.

Lemma decode_encode s : decode (encode s) = s.
Proof.
  unfold decode. induction s as [|c s IH]; cbn; [reflexivity|].
  rewrite plus_to_space_app, decode_encode_byte, IH. reflexivity.
Qed.

Lemma encode_no_sep s :
  Str.all (fun x => negb (is_sep x)) (encode s) = true.
Proof.
  induction s as [|c s IH]; cbn; [reflexivity|].
  now rewrite all_app, encode_byte_no_sep, IH.
Qed.

Lemma cut_app sep (a b : string) :
  Str.all (fun x => negb (Ascii.eqb x sep)) a = true ->
  Str.cut sep (a ++ String sep b) = Some (a, b).
Proof.
  induction a as [|x a IH]; cbn.
  - intros _. now rewrite Ascii.eqb_refl.
  - intros H. apply andb_true_iff in H as [Hx Ha].
    apply negb_true_iff in Hx. rewrite Hx, (IH Ha). reflexivity.
Qed.

Lemma split_on_plain sep (a : string) :
  Str.all (fun x => negb (Ascii.eqb x sep)) a = true ->
  Str.split_on sep a = [a].
Proof.
  induction a as [|x a IH]; cbn; [reflexivity|].
  intros H. apply andb_true_iff in H as [Hx Ha].
  apply negb_true_iff in Hx. rewrite Hx, (IH Ha). reflexivity.
Qed.

Lemma split_on_app sep (a b : string) :
  Str.all (fun x => negb (Ascii.eqb x sep)) a = true ->
  Str.split_on sep (a ++ String sep b) = a :: Str.split_on sep b.
Proof.
  induction a as [|x a IH]; cbn.
  - intros _. now rewrite Ascii.eqb_refl.
  - intros H. apply andb_true_iff in H as [Hx Ha].
    apply negb_true_iff in Hx. rewrite Hx, (IH Ha). reflexivity.
Qed.

Lemma all_weaken (p q : ascii -> bool) s :
  (forall c, p c = true -> q c = true) ->
  Str.all p s = true -> Str.all q s = true.
Proof.
  intros Hpq. induction s as [|c s IH]; cbn; [reflexivity|].
  intros H. apply andb_true_iff in H as [Hc Hs].
  now rewrite (Hpq c Hc), (IH Hs).
Qed.

Lemma no_sep_no_amp s :
  Str.all (fun x => negb (is_sep x)) s = true ->
  Str.all (fun x => negb (Ascii.eqb x "&")) s = true.
Proof.
  apply all_weaken. intros c. unfold is_sep.
  rewrite !negb_true_iff, orb_false_iff. tauto.
Qed.

Lemma no_sep_no_eq s :
  Str.all (fun x => negb (is_sep x)) s = true ->
  Str.all (fun x => negb (Ascii.eqb x "=")) s = true.
Proof.
  apply all_weaken. intros c. unfold is_sep.
  rewrite !negb_true_iff, orb_false_iff. tauto.
Qed.

Lemma serialize_tuple_no_amp p :
  Str.all (fun x => negb (Ascii.eqb x "&")) (serialize_tuple p) = true.
Proof.
  unfold serialize_tuple. rewrite !all_app. cbn.
  now rewrite !(no_sep_no_amp _ (encode_no_sep _)).
Qed.

Lemma serialize_tuple_not_empty p : Str.is_empty (serialize_tuple p) = false.
Proof.
  unfold serialize_tuple. destruct (encode (fst p)); reflexivity.
Qed.

Lemma parse_serialize_tuple p : parse_tuple (serialize_tuple p) = p.
Proof.
  unfold parse_tuple, serialize_tuple. cbn.
  rewrite (cut_app "=" _ _ (no_sep_no_eq _ (encode_no_sep _))).
  rewrite !decode_encode. now destruct p.
Qed.

Lemma split_join_tuples (l : t) :
  filter (fun p => negb (Str.is_empty p))
         (Str.split_on "&" (Str.join "&" (map serialize_tuple l))) =
  map serialize_tuple l.
Proof.
  induction l as [|p l IH]; [reflexivity|].
  destruct l as [|p' l].
  - cbn. rewrite (split_on_plain _ _ (serialize_tuple_no_amp p)). cbn.
    now rewrite serialize_tuple_not_empty.
  - change (Str.join "&" (map serialize_tuple (p :: p' :: l)))
      with (serialize_tuple p ++ String "&" (Str.join "&" (map serialize_tuple (p' :: l))))%string.
    rewrite (split_on_app _ _ _ (serialize_tuple_no_amp p)).
    cbn [filter]. rewrite serialize_tuple_not_empty. cbn [negb].
    rewrite IH. reflexivity.
Qed.

(** Parsing undoes serializing. *)
Lemma parse_toString (l : t) : parse (toString l) = l.
Proof.
  unfold parse, toString. rewrite split_join_tuples, map_map.
  rewrite <- (map_id l) at 2. apply map_ext. apply parse_serialize_tuple.
Qed.

(** ** URLSearchParams: [set] *)

Lemma occurrences_remove_same n l : occurrences n (remove_name n l) = 0.
Proof.
  unfold occurrences, remove_name. induction l as [|[k x] l IH]; cbn; [reflexivity|].
  destruct (String.eqb k n) eqn:E; cbn; [exact IH | now rewrite E].
Qed.

Lemma occurrences_remove_other m n l :
  m <> n -> occurrences m (remove_name n l) = occurrences m l.
Proof.
  intros Hmn. unfold occurrences, remove_name.
  induction l as [|[k x] l IH]; cbn; [reflexivity|].
  destruct (String.eqb k n) eqn:E; cbn.
  - apply String.eqb_eq in E. subst k.
    assert (String.eqb n m = false) as -> by (apply String.eqb_neq; congruence).
    exact IH.
  - destruct (String.eqb k m); cbn; now rewrite IH.
Qed.

Lemma remove_absent n l : occurrences n l = 0 -> remove_name n l = l.
Proof.
  unfold occurrences, remove_name. induction l as [|[k x] l IH]; cbn; [reflexivity|].
  destruct (String.eqb k n); cbn; [discriminate|].
  intros H. now rewrite (IH H).
Qed.

Lemma occurrences_set_same n v l : occurrences n (set n v l) = 1.
Proof.
  induction l as [|[k x] l IH]; cbn.
  - unfold occurrences. cbn. now rewrite String.eqb_refl.
  - destruct (String.eqb k n) eqn:E.
    + change (occurrences n ((n, v) :: remove_name n l))
        with (length (filter (fun p => String.eqb (fst p) n)
                             ((n, v) :: remove_name n l))).
      cbn. rewrite String.eqb_refl. cbn. f_equal.
      apply occurrences_remove_same.
    + unfold occurrences in *. cbn. rewrite E. exact IH.
Qed.

Lemma occurrences_set_other m n v l :
  m <> n -> occurrences m (set n v l) = occurrences m l.
Proof.
  intros Hmn.
  assert (Hnm : String.eqb n m = false) by (apply String.eqb_neq; congruence).
  induction l as [|[k x] l IH]; cbn.
  - unfold occurrences. cbn. now rewrite Hnm.
  - destruct (String.eqb k n) eqn:E.
    + apply String.eqb_eq in E. subst k.
      pose proof (occurrences_remove_other m n l Hmn) as R.
      unfold occurrences in *. cbn. rewrite Hnm. exact R.
    + unfold occurrences in *. cbn. destruct (String.eqb k m); cbn; now rewrite IH.
Qed.

Lemma overwrite_absent n v l : occurrences n l = 0 -> map (overwrite n v) l = l.
Proof.
  unfold occurrences, overwrite. induction l as [|[k x] l IH]; cbn; [reflexivity|].
  destruct (String.eqb k n); cbn; [discriminate|].
  intros H. now rewrite (IH H).
Qed.

(** On a list that names [n] once, [set] overwrites in place. *)
Lemma set_overwrites n v l :
  occurrences n l = 1 -> set n v l = map (overwrite n v) l.
Proof.
  induction l as [|[k x] l IH].
  - unfold occurrences. cbn. discriminate.
  - cbn [set map]. intros H. unfold occurrences in H. cbn in H.
    destruct (String.eqb k n) eqn:E; cbn in H.
    + injection H as H.
      rewrite (overwrite_absent n v l H), (remove_absent n l H).
      unfold overwrite. cbn. now rewrite E.
    + rewrite <- (IH H). unfold overwrite. cbn. now rewrite E.
Qed.

Lemma occurrences_overwrite m n v l :
  occurrences m (map (overwrite n v) l) = occurrences m l.
Proof.
  unfold occurrences, overwrite. induction l as [|[k x] l IH]; cbn; [reflexivity|].
  destruct (String.eqb k n) eqn:E; cbn.
  - apply String.eqb_eq in E. subst k. destruct (String.eqb n m); cbn; now rewrite IH.
  - destruct (String.eqb k m); cbn; now rewrite IH.
Qed.

Lemma get_set_same n v l : get n (set n v l) = Some v.
Proof.
  induction l as [|[k x] l IH]; cbn.
  - now rewrite String.eqb_refl.
  - destruct (String.eqb k n) eqn:E; cbn; [now rewrite String.eqb_refl | now rewrite E].
Qed.

Lemma get_remove_other k n l : k <> n -> get k (remove_name n l) = get k l.
Proof.
  intros Hkn. unfold remove_name. induction l as [|[m x] l IH]; cbn; [reflexivity|].
  destruct (String.eqb m n) eqn:E; cbn.
  - apply String.eqb_eq in E. subst m.
    assert (String.eqb n k = false) as -> by (apply String.eqb_neq; congruence).
    exact IH.
  - destruct (String.eqb m k); [reflexivity | exact IH].
Qed.

Lemma get_set_other k n v l : k <> n -> get k (set n v l) = get k l.
Proof.
  intros Hkn.
  assert (Hnk : String.eqb n k = false) by (apply String.eqb_neq; congruence).
  induction l as [|[m x] l IH]; cbn.
  - now rewrite Hnk.
  - destruct (String.eqb m n) eqn:E; cbn.
    + apply String.eqb_eq in E. subst m. rewrite Hnk.
      now apply get_remove_other.
    + destruct (String.eqb m k); [reflexivity | exact IH].
Qed.

Lemma in_remove_name p n l : In p (remove_name n l) <-> In p l /\ fst p <> n.
Proof.
  unfold remove_name. rewrite filter_In, negb_true_iff, String.eqb_neq. tauto.
Qed.

(** Tuples under another name are the same before and after a [set]. *)
Lemma in_set_other p n v l : fst p <> n -> (In p (set n v l) <-> In p l).
Proof.
  intros Hp. induction l as [|[k x] l IH]; cbn.
  - split; [intros [<- | []]; now cbn in Hp | intros []].
  - destruct (String.eqb k n) eqn:E; cbn.
    + apply String.eqb_eq in E. subst k. rewrite in_remove_name. split.
      * intros [<- | [H _]]; [now cbn in Hp | right; exact H].
      * intros [<- | H]; [now cbn in Hp | right; split; assumption].
    + rewrite IH. tauto.
Qed.

(** The tuples named [n] after [set n v] are all [(n, v)]. *)
Lemma in_set_same p n v l : In p (set n v l) -> fst p = n -> p = (n, v).
Proof.
  induction l as [|[k x] l IH]; cbn.
  - intros [<- | []]; reflexivity.
  - destruct (String.eqb k n) eqn:E; cbn.
    + intros [<- | H] Hp; [reflexivity|].
      apply in_remove_name in H. tauto.
    + intros [<- | H] Hp; [|now apply IH].
      cbn in Hp. apply String.eqb_neq in E. contradiction.
Qed.

Lemma filter_remove_name (f : string * string -> bool) n l :
  (forall p, fst p = n -> f p = false) ->
  filter f (remove_name n l) = filter f l.
Proof.
  intros Hf. unfold remove_name. induction l as [|[k x] l IH]; cbn; [reflexivity|].
  destruct (String.eqb k n) eqn:E; cbn.
  - apply String.eqb_eq in E. now rewrite (Hf (k, x) E).
  - now rewrite IH.
Qed.

(** A filter that rejects the name [n] sees no change by [set n v]. *)
Lemma filter_set (f : string * string -> bool) n v l :
  (forall p, fst p = n -> f p = false) ->
  filter f (set n v l) = filter f l.
Proof.
  intros Hf. induction l as [|[k x] l IH]; cbn.
  - now rewrite (Hf (n, v) eq_refl).
  - destruct (String.eqb k n) eqn:E; cbn.
    + apply String.eqb_eq in E. subst k.
      rewrite (Hf (n, v) eq_refl), (Hf (n, x) eq_refl).
      now apply filter_remove_name.
    + now rewrite IH.
Qed.

(** ** Writing the variant's options *)

Lemma occurrences_setOptions_keep options : forall n l,
  occurrences n l = 1 -> occurrences n (setOptions options l) = 1.
Proof.
  induction options as [|o rest IH]; intros n l H; cbn; [exact H|].
  apply IH. destruct (string_dec n (name o)) as [-> | Hn].
  - apply occurrences_set_same.
  - now rewrite occurrences_set_other.
Qed.

(** After the loop every option name is named exactly once. *)
Lemma occurrences_setOptions options : forall o l,
  In o options -> occurrences (name o) (setOptions options l) = 1.
Proof.
  induction options as [|o' rest IH]; intros o l Hin; [destruct Hin|].
  cbn. destruct Hin as [<- | Hin].
  - apply occurrences_setOptions_keep, occurrences_set_same.
  - now apply IH.
Qed.

Lemma setOptions_overwrites options : forall l,
  (forall o, In o options -> occurrences (name o) l = 1) ->
  setOptions options l = map (overwriteAll options) l.
Proof.
  induction options as [|o rest IH]; intros l H; cbn.
  - unfold overwriteAll. cbn. now rewrite map_id.
  - rewrite (set_overwrites _ _ _ (H o (or_introl eq_refl))).
    rewrite IH.
    + rewrite map_map. reflexivity.
    + intros o' Ho'. rewrite occurrences_overwrite. apply H. now right.
Qed.

Lemma overwriteAll_cons o rest p :
  overwriteAll (o :: rest) p = overwriteAll rest (overwrite (name o) (value o) p).
Proof. reflexivity. Qed.

Lemma overwrite_hit n v p : String.eqb (fst p) n = true -> overwrite n v p = (n, v).
Proof. intros E. unfold overwrite. now rewrite E. Qed.

Lemma overwrite_miss n v p : String.eqb (fst p) n = false -> overwrite n v p = p.
Proof. intros E. unfold overwrite. now rewrite E. Qed.

Lemma overwriteAll_absent options : forall p,
  ~ In (fst p) (map name options) -> overwriteAll options p = p.
Proof.
  induction options as [|o rest IH]; intros p H; [reflexivity|].
  cbn in H. rewrite overwriteAll_cons, overwrite_miss.
  - apply IH. tauto.
  - apply String.eqb_neq. intros E. apply H. left. now rewrite E.
Qed.

Lemma overwriteAll_same_name options : forall p q,
  fst p = fst q -> In (fst p) (map name options) ->
  overwriteAll options p = overwriteAll options q.
Proof.
  induction options as [|o rest IH]; intros p q Hpq Hin; [destruct Hin|].
  rewrite !overwriteAll_cons.
  destruct (String.eqb (fst p) (name o)) eqn:E.
  - rewrite (overwrite_hit _ _ p E). rewrite Hpq in E.
    now rewrite (overwrite_hit _ _ q E).
  - rewrite (overwrite_miss _ _ p E).
    assert (E' := E). rewrite Hpq in E'. rewrite (overwrite_miss _ _ q E').
    apply IH; [exact Hpq|].
    destruct Hin as [Hin | Hin]; [|exact Hin].
    apply String.eqb_neq in E. congruence.
Qed.

Lemma in_setOptions_other options : forall p l,
  ~ In (fst p) (map name options) ->
  (In p (setOptions options l) <-> In p l).
Proof.
  induction options as [|o rest IH]; intros p l H; cbn; [tauto|].
  cbn in H. rewrite IH by tauto. apply in_set_other. intros E. apply H. now left.
Qed.

(** The tuples left by the loop are those the overwriting leaves alone. *)
Lemma overwriteAll_fixed options : forall p l,
  In p (setOptions options l) -> overwriteAll options p = p.
Proof.
  induction options as [|o rest IH]; intros p l Hin; [reflexivity|].
  change (In p (setOptions rest (set (name o) (value o) l))) in Hin.
  rewrite overwriteAll_cons.
  destruct (String.eqb (fst p) (name o)) eqn:E.
  - rewrite (overwrite_hit _ _ p E). apply String.eqb_eq in E.
    destruct (in_dec string_dec (fst p) (map name rest)) as [Hr | Hr].
    + transitivity (overwriteAll rest p); [|exact (IH p _ Hin)].
      apply overwriteAll_same_name; cbn; [now symmetry | now rewrite <- E].
    + apply (proj1 (in_setOptions_other rest p _ Hr)) in Hin.
      rewrite (in_set_same _ _ _ _ Hin E).
      apply overwriteAll_absent. cbn. now rewrite <- E.
  - rewrite (overwrite_miss _ _ p E). exact (IH p _ Hin).
Qed.

(** Running the second loop again changes nothing. *)
Lemma setOptions_idempotent options l :
  setOptions options (setOptions options l) = setOptions options l.
Proof.
  rewrite (setOptions_overwrites options (setOptions options l)).
  - rewrite <- (map_id (setOptions options l)) at 2.
    apply map_ext_in. intros p Hp. exact (overwriteAll_fixed options p l Hp).
  - intros o Ho. now apply occurrences_setOptions.
Qed.

Lemma get_setOptions_other options : forall k l,
  ~ In k (map name options) -> get k (setOptions options l) = get k l.
Proof.
  induction options as [|o rest IH]; intros k l H; cbn; [reflexivity|].
  cbn in H. rewrite IH by tauto. apply get_set_other. intros E. apply H. now left.
Qed.

Lemma get_setOptions_same options : forall o l,
  NoDup (map name options) -> In o options ->
  get (name o) (setOptions options l) = Some (value o).
Proof.
  induction options as [|o' rest IH]; intros o l Hnd Hin; [destruct Hin|].
  cbn in Hnd. inversion Hnd as [|? ? Hnotin Hnd']; subst.
  cbn. destruct Hin as [<- | Hin].
  - rewrite get_setOptions_other by exact Hnotin. apply get_set_same.
  - now apply IH.
Qed.

(** After the loop, the first value under an option name is a value the
    options give to that name. *)
Lemma get_setOptions_in options : forall o l,
  In o options ->
  exists o', In o' options /\ name o' = name o
             /\ get (name o) (setOptions options l) = Some (value o').
Proof.
  induction options as [|o1 rest IH]; intros o l Hin; [destruct Hin|].
  change (setOptions (o1 :: rest) l)
    with (setOptions rest (set (name o1) (value o1) l)).
  destruct (in_dec string_dec (name o) (map name rest)) as [Hr | Hr].
  - apply in_map_iff in Hr as [o2 [Hn Ho2]].
    destruct (IH o2 (set (name o1) (value o1) l) Ho2) as [o' [Ho' [Hn' Hg]]].
    exists o'. split; [now right|]. split; [congruence|].
    rewrite <- Hn. exact Hg.
  - destruct Hin as [<- | Hin].
    + exists o1. split; [now left|]. split; [reflexivity|].
      rewrite get_setOptions_other by exact Hr. apply get_set_same.
    + exfalso. apply Hr. now apply in_map.
Qed.

Lemma filter_setOptions (f : string * string -> bool) options : forall l,
  (forall p, In (fst p) (map name options) -> f p = false) ->
  filter f (setOptions options l) = filter f l.
Proof.
  induction options as [|o rest IH]; intros l Hf; cbn; [reflexivity|].
  rewrite IH.
  - apply filter_set. intros p Hp. apply Hf. left. now rewrite Hp.
  - intros p Hp. apply Hf. now right.
Qed.

(** ** URL synchronisation: what a run leaves behind *)

Lemma of_string_search loc : of_string (search loc) = parse (query loc).
Proof. unfold search. destruct (query loc); reflexivity. Qed.

Lemma slice1_search loc : Str.slice1 (search loc) = query loc.
Proof. unfold search. destruct (query loc); reflexivity. Qed.

(** The parameters of the location after one run of the effect. *)
Lemma params_after_run variant loc :
  let before := of_string (search loc) in
  let after := of_string (search (synchronize false (Some variant) loc)) in
  after = before
  \/ after = setOptions (selectedOptions variant) before.
Proof.
  cbn zeta. unfold synchronize, syncEffect.
  destruct (needsUpdate loc (selectedOptions variant)); [|now left].
  cbn zeta.
  destruct (String.eqb (newSearch loc (selectedOptions variant))
                       (Str.slice1 (search loc)));
    cbn [negb perform]; [now left|].
  right. rewrite of_string_search. cbn [query]. unfold newSearch, copy.
  now rewrite parse_toString.
Qed.

(** C2.  A second run of the effect on the location the first run left
    makes no history call, so that location is a fixed point. *)
Theorem synchronization_is_idempotent :
  forall combinedListing selectedVariant loc,
    syncEffect combinedListing selectedVariant
               (synchronize combinedListing selectedVariant loc) = None
    /\ synchronize combinedListing selectedVariant
                   (synchronize combinedListing selectedVariant loc) =
       synchronize combinedListing selectedVariant loc.
Proof.
  intros cl sv loc.
  assert (H : syncEffect cl sv (synchronize cl sv loc) = None).
  { unfold synchronize.
    destruct (syncEffect cl sv loc) as [[path s]|] eqn:E; cbn [perform];
      [|exact E].
    unfold syncEffect in E |- *.
    destruct sv as [variant|]; [|reflexivity].
    destruct cl; [reflexivity|].
    destruct (needsUpdate loc (selectedOptions variant)); [|discriminate E].
    cbn zeta in E. destruct (negb _); [|discriminate E].
    injection E as <- <-.
    set (loc' := {| pathname := pathname loc;
                    query := newSearch loc (selectedOptions variant);
                    hash := "" |}).
    destruct (needsUpdate loc' (selectedOptions variant)); [|reflexivity].
    cbn zeta.
    assert (R : newSearch loc' (selectedOptions variant) =
                Str.slice1 (search loc')).
    { rewrite slice1_search. unfold newSearch at 1, copy.
      rewrite of_string_search. cbn [query loc'].
      unfold newSearch, copy.
      now rewrite parse_toString, setOptions_idempotent. }
    rewrite R, String.eqb_refl. reflexivity. }
  split; [exact H|]. unfold synchronize at 1. now rewrite H.
Qed.

Lemma anyOptionDiffers_false params options :
  anyOptionDiffers params options = false ->
  forall o, In o options -> get (name o) params = Some (value o).
Proof.
  intros H o Hin.
  destruct (get (name o) params) as [c|] eqn:G.
  - destruct (string_dec c (value o)) as [-> | Hc]; [reflexivity|].
    assert (anyOptionDiffers params options = true); [|congruence].
    apply anyOptionDiffers_true_iff. exists o. split; [exact Hin|].
    rewrite G. congruence.
  - assert (anyOptionDiffers params options = true); [|congruence].
    apply anyOptionDiffers_true_iff. exists o. split; [exact Hin|].
    rewrite G. discriminate.
Qed.

Lemma unrelated_false options p :
  In (fst p) (map name options) -> unrelated options p = false.
Proof.
  intros H. unfold unrelated. apply negb_false_iff, existsb_exists.
  apply in_map_iff in H as [o [Ho Hin]]. exists o. split; [exact Hin|].
  now apply String.eqb_eq.
Qed.

(** C5.  A run of the effect for a product that is not a combined listing
    keeps every parameter whose name is not an option name of the selected
    variant: such a tuple is still in the URL with its value, the first value
    under its name is the same, and the unrelated tuples are the same in the
    same order.  Next to them the URL carries, under every option name, a
    value the variant gives to that name; with distinct option names that is
    every option of the variant with its value. *)
Theorem unrelated_parameters_survive :
  forall variant loc k v,
    let options := selectedOptions variant in
    let before := of_string (search loc) in
    let after := of_string (search (synchronize false (Some variant) loc)) in
    (forall o, In o options -> name o <> k) ->
    In (k, v) before ->
    In (k, v) after
    /\ get k after = get k before
    /\ filter (unrelated options) after = filter (unrelated options) before
    /\ (forall o, In o options ->
          exists o', In o' options /\ name o' = name o
                     /\ get (name o) after = Some (value o'))
    /\ (NoDup (map name options) ->
        forall o, In o options -> get (name o) after = Some (value o)).
Proof.
  intros variant loc k v options before after Hk Hin.
  assert (Hnot : ~ In k (map name options)).
  { intros H. apply in_map_iff in H as [o [Ho Ho']]. exact (Hk o Ho' Ho). }
  assert (Hcase : (forall o, In o options -> get (name o) after = Some (value o))
                  \/ after = setOptions options before).
  { subst after. unfold synchronize, syncEffect. fold options.
    destruct (needsUpdate loc options) eqn:N.
    - right. cbn zeta.
      destruct (String.eqb (newSearch loc options) (Str.slice1 (search loc))) eqn:Q;
        cbn [negb perform].
      + apply String.eqb_eq in Q. rewrite slice1_search in Q.
        subst before. rewrite of_string_search at 1. rewrite <- Q.
        unfold newSearch, copy. now rewrite parse_toString.
      + rewrite of_string_search. cbn [query]. unfold newSearch, copy.
        now rewrite parse_toString.
    - left. cbn [perform]. unfold needsUpdate in N.
      destruct (String.eqb (search loc) ""); [discriminate N|].
      exact (anyOptionDiffers_false _ _ N). }
  assert (Hsome : forall o, In o options ->
                    exists o', In o' options /\ name o' = name o
                               /\ get (name o) after = Some (value o')).
  { intros o Ho. destruct Hcase as [H | ->].
    - exists o. split; [exact Ho|]. split; [reflexivity | exact (H o Ho)].
    - now apply get_setOptions_in. }
  assert (Hopt : NoDup (map name options) ->
                 forall o, In o options -> get (name o) after = Some (value o)).
  { intros Hnd o Ho. destruct Hcase as [H | ->]; [exact (H o Ho)|].
    now apply get_setOptions_same. }
  destruct (params_after_run variant loc) as [E | E];
    fold after before options in E.
  - rewrite E in *. repeat split; assumption.
  - split; [|split; [|split; [|split]]]; try assumption; rewrite E.
    + apply in_setOptions_other; assumption.
    + now apply get_setOptions_other.
    + apply filter_setOptions. apply unrelated_false.
Qed.

Lemma unrelated_parameters_survive_witness :
  let loc := Sample.at_url "/products/choco-box" "ref=abc&Size=Small" in
  let after := of_string (search (synchronize false (Some Sample.large_dark) loc)) in
  In ("ref", "abc") (of_string (search loc))
  /\ In ("ref", "abc") after
  /\ get "ref" after = Some "abc"
  /\ get "Size" after = Some "Large".
Proof.
  intros loc after.
  assert (Hk : forall o, In o (selectedOptions Sample.large_dark) -> name o <> "ref").
  { intros o [<- | [<- | []]]; discriminate. }
  assert (Hin : In ("ref", "abc") (of_string (search loc))).
  { left. reflexivity. }
  destruct (unrelated_parameters_survive Sample.large_dark loc "ref" "abc" Hk Hin)
    as [H1 [H2 [_ [_ H4]]]].
  split; [exact Hin|]. split; [exact H1|]. split; [exact H2|].
  apply (H4 ltac:(repeat constructor; cbn; intuition discriminate)
            {| name := "Size"; value := "Large" |}).
  left. reflexivity.
Defined.

(** ** The scenarios of the specification *)

Example scenario_adds_missing_option :
  syncEffect false (Some Sample.large_dark)
             (Sample.at_url "/products/choco-box" "Size=Large") =
  Some (ReplaceState "/products/choco-box" "Size=Large&Flavor=Dark").
Proof. reflexivity. Qed.

Example scenario_keeps_referral :
  synchronize false (Some Sample.large_dark)
              (Sample.at_url "/products/choco-box" "ref=abc&Size=Small") =
  Sample.at_url "/products/choco-box" "ref=abc&Size=Large&Flavor=Dark".
Proof. reflexivity. Qed.

Example scenario_first_load :
  synchronize false (Some Sample.large_dark)
              (Sample.at_url "/products/choco-box" "") =
  Sample.at_url "/products/choco-box" "Size=Large&Flavor=Dark".
Proof. reflexivity. Qed.

Example scenario_duplicate_names_collapse :
  of_string (search (synchronize false (Some Sample.large_dark)
                       (Sample.at_url "/products/choco-box"
                                      "Size=Small&x=a%20b&Size=Medium"))) =
  [("Size", "Large"); ("x", "a b"); ("Flavor", "Dark")].
Proof. reflexivity. Qed.

Example scenario_home_custom_segment :
  home_type (SpecModel.imports true)
            (Sample.home_args (Some "fr-custom") (Some "/fr")) = CUSTOM.
Proof. reflexivity. Qed.

Example scenario_both_reads_fail :
  fst (loader (SpecModel.imports true)
              (Sample.product_args "/products/choco-box" "" "choco-box" None)
              [Reject1 (ThrownError "content"); Reject0 (ThrownError "catalog")]) =
  Finished (Threw (ThrownError "content")).
Proof. reflexivity. Qed.

(** * Further properties of the routes *)

(** ** The effect's history call *)

Lemma call_shape cl sv loc c :
  syncEffect cl sv loc = Some c ->
  exists variant,
    sv = Some variant /\ cl = false
    /\ needsUpdate loc (selectedOptions variant) = true
    /\ c = ReplaceState (pathname loc) (newSearch loc (selectedOptions variant))
    /\ newSearch loc (selectedOptions variant) <> query loc.
Proof.
  unfold syncEffect. destruct sv as [variant|]; [|discriminate].
  destruct cl; [discriminate|].
  destruct (needsUpdate loc (selectedOptions variant)) eqn:N; [|discriminate].
  cbn zeta.
  destruct (String.eqb (newSearch loc (selectedOptions variant))
                       (Str.slice1 (search loc))) eqn:Q;
    cbn [negb]; [discriminate|].
  intros H. injection H as <-. exists variant.
  repeat split; [exact N|].
  apply String.eqb_neq in Q. now rewrite slice1_search in Q.
Qed.

Lemma newSearch_unfold loc options :
  newSearch loc options = toString (setOptions options (parse (query loc))).
Proof. unfold newSearch, copy. now rewrite of_string_search. Qed.

Lemma parse_empty : parse "" = [].
Proof. reflexivity. Qed.

Lemma toString_empty_iff l : toString l = "" <-> l = [].
Proof.
  split; [|intros ->; reflexivity].
  destruct l as [|p l]; [reflexivity|]. intros H. exfalso.
  pose proof (serialize_tuple_not_empty p) as Hp.
  unfold toString in H. cbn [map Str.join] in H.
  destruct (map serialize_tuple l); destruct (serialize_tuple p);
    cbn in *; discriminate.
Qed.

Lemma setOptions_not_empty options l :
  options <> [] -> setOptions options l <> [].
Proof.
  destruct options as [|o rest]; [congruence|]. intros _ E.
  pose proof (occurrences_setOptions (o :: rest) o l (or_introl eq_refl)) as H.
  rewrite E in H. discriminate H.
Qed.

(** Without options the effect makes no call. *)
Lemma no_call_without_options cl variant loc :
  selectedOptions variant = [] -> syncEffect cl (Some variant) loc = None.
Proof.
  intros E.
  destruct (syncEffect cl (Some variant) loc) as [c|] eqn:H; [|reflexivity].
  exfalso. apply call_shape in H as [v [Hv [_ [N [_ Q]]]]].
  injection Hv as <-. rewrite E in *. unfold needsUpdate in N.
  destruct (String.eqb (search loc) "") eqn:S; [|discriminate N].
  apply String.eqb_eq in S. apply Q. rewrite newSearch_unfold.
  rewrite <- slice1_search, S in *. reflexivity.
Qed.

(** The parameters of the location a call leaves. *)
Lemma params_after_call cl sv loc call :
  syncEffect cl sv loc = Some call ->
  exists variant,
    sv = Some variant
    /\ of_string (search (perform loc (Some call))) =
       setOptions (selectedOptions variant) (of_string (search loc)).
Proof.
  intros H. apply call_shape in H as [variant [-> [-> [_ [-> _]]]]].
  exists variant. split; [reflexivity|].
  cbn [perform]. rewrite of_string_search. cbn [query].
  rewrite newSearch_unfold, parse_toString. now rewrite of_string_search.
Qed.

(** X1.  When the effect calls [replaceState], the URL it passes keeps the
    current path, its query is not empty and differs from the current one,
    and reading the new location's parameters gives exactly the old ones
    with the variant's options set. *)
Theorem history_call_anatomy :
  forall combinedListing selectedVariant loc call,
    syncEffect combinedListing selectedVariant loc = Some call ->
    exists variant s,
      selectedVariant = Some variant
      /\ call = ReplaceState (pathname loc) s
      /\ url_of_call call = (pathname loc ++ "?" ++ s)%string
      /\ s <> ""
      /\ s <> query loc
      /\ of_string (search (perform loc (Some call))) =
         setOptions (selectedOptions variant) (of_string (search loc)).
Proof.
  intros cl sv loc call H.
  pose proof H as H0.
  apply call_shape in H as [variant [-> [-> [N [-> Q]]]]].
  exists variant, (newSearch loc (selectedOptions variant)).
  split; [reflexivity|]. split; [reflexivity|]. split; [reflexivity|].
  split; [|split; [exact Q|]].
  - rewrite newSearch_unfold. intros E. apply toString_empty_iff in E.
    revert E. apply setOptions_not_empty. intros E.
    rewrite (no_call_without_options false variant loc E) in H0. discriminate H0.
  - cbn [perform]. rewrite of_string_search. cbn [query].
    rewrite newSearch_unfold, parse_toString. now rewrite of_string_search.
Qed.

Lemma history_call_anatomy_witness :
  let loc := Sample.at_url "/products/choco-box" "ref=a%20b&Size=Small" in
  let call := ReplaceState "/products/choco-box" "ref=a+b&Size=Large&Flavor=Dark" in
  syncEffect false (Some Sample.large_dark) loc = Some call
  /\ of_string (search (perform loc (Some call))) =
     [("ref", "a b"); ("Size", "Large"); ("Flavor", "Dark")].
Proof.
  intros loc call. split; [reflexivity|].
  destruct (history_call_anatomy false (Some Sample.large_dark) loc call eq_refl)
    as [variant [s [Hv [_ [_ [_ [_ H]]]]]]].
  injection Hv as <-. rewrite H. reflexivity.
Defined.

(** ** The effect: what a run does to the parameters *)

(** A run either finds nothing to do, or leaves the old parameters with the
    options set. *)
Lemma run_cases variant loc :
  (synchronize false (Some variant) loc = loc
   /\ needsUpdate loc (selectedOptions variant) = false)
  \/ of_string (search (synchronize false (Some variant) loc)) =
     setOptions (selectedOptions variant) (of_string (search loc)).
Proof.
  unfold synchronize, syncEffect.
  destruct (needsUpdate loc (selectedOptions variant)) eqn:N;
    [right | left; split; reflexivity].
  cbn zeta.
  destruct (String.eqb (newSearch loc (selectedOptions variant))
                       (Str.slice1 (search loc))) eqn:Q;
    cbn [negb perform].
  - apply String.eqb_eq in Q. rewrite slice1_search in Q.
    rewrite of_string_search at 1. rewrite <- Q, newSearch_unfold.
    now rewrite parse_toString, of_string_search.
  - rewrite of_string_search. cbn [query].
    now rewrite newSearch_unfold, parse_toString, of_string_search.
Qed.

Lemma anyOptionDiffers_false_iff params options :
  anyOptionDiffers params options = false <->
  forall o, In o options -> get (name o) params = Some (value o).
Proof.
  split; [apply anyOptionDiffers_false|].
  intros H. destruct (anyOptionDiffers params options) eqn:E; [|reflexivity].
  apply anyOptionDiffers_true_iff in E as [o [Ho Hd]].
  exfalso. exact (Hd (H o Ho)).
Qed.

Lemma of_string_empty_search loc : search loc = "" -> of_string (search loc) = [].
Proof. intros ->. reflexivity. Qed.

(** X2.  For a variant with at least one option, the location left by a
    run is in sync (a further run would not even mark an update as needed)
    exactly when the variant gives no option name two different values. *)
Theorem in_sync_after_one_run :
  forall variant loc,
    selectedOptions variant <> [] ->
    (needsUpdate (synchronize false (Some variant) loc) (selectedOptions variant)
     = false
     <-> consistent (selectedOptions variant)).
Proof.
  intros variant loc Hne.
  pose proof (run_cases variant loc) as Hrun.
  remember (selectedOptions variant) as options eqn:Eo.
  remember (synchronize false (Some variant) loc) as loc' eqn:El.
  split.
  - intros N o o' Ho Ho' Hn. unfold needsUpdate in N.
    destruct (String.eqb (search loc') ""); [discriminate N|].
    pose proof (anyOptionDiffers_false _ _ N o Ho) as G.
    pose proof (anyOptionDiffers_false _ _ N o' Ho') as G'.
    rewrite Hn in G. congruence.
  - intros Hc.
    assert (G : forall o, In o options ->
                  get (name o) (of_string (search loc')) = Some (value o)).
    { destruct Hrun as [[E N] | E].
      - rewrite E. unfold needsUpdate in N.
        destruct (String.eqb (search loc) ""); [discriminate N|].
        exact (anyOptionDiffers_false _ _ N).
      - intros o Ho. rewrite E.
        destruct (get_setOptions_in options o (of_string (search loc)) Ho)
          as [o' [Ho' [Hn ->]]].
        f_equal. exact (Hc o' o Ho' Ho Hn). }
    unfold needsUpdate.
    destruct (String.eqb (search loc') "") eqn:S.
    + exfalso. apply String.eqb_eq in S.
      destruct options as [|o rest]; [congruence|].
      specialize (G o (or_introl eq_refl)).
      rewrite (of_string_empty_search loc' S) in G. discriminate G.
    + now apply anyOptionDiffers_false_iff.
Qed.

Lemma in_sync_after_one_run_witness :
  selectedOptions Sample.large_dark <> []
  /\ needsUpdate (synchronize false (Some Sample.large_dark)
                    (Sample.at_url "/products/choco-box" "Size=Small"))
                 (selectedOptions Sample.large_dark) = false
  /\ consistent (selectedOptions Sample.large_dark).
Proof.
  assert (Hne : selectedOptions Sample.large_dark <> []) by discriminate.
  split; [exact Hne|]. split; [reflexivity|].
  exact (proj1 (in_sync_after_one_run Sample.large_dark
                  (Sample.at_url "/products/choco-box" "Size=Small") Hne)
               eq_refl).
Defined.

Lemma occurrences_setOptions_other options : forall k l,
  ~ In k (map name options) ->
  occurrences k (setOptions options l) = occurrences k l.
Proof.
  induction options as [|o rest IH]; intros k l H; [reflexivity|].
  change (setOptions (o :: rest) l)
    with (setOptions rest (set (name o) (value o) l)).
  cbn in H. rewrite IH by tauto. apply occurrences_set_other.
  intros E. apply H. now left.
Qed.

(** X3.  After a call every option name of the variant occurs exactly once
    among the URL's parameters, however often it occurred before; the other
    names occur as often as before. *)
Theorem call_collapses_option_names :
  forall combinedListing variant loc call,
    syncEffect combinedListing (Some variant) loc = Some call ->
    let before := of_string (search loc) in
    let after := of_string (search (perform loc (Some call))) in
    (forall o, In o (selectedOptions variant) -> occurrences (name o) after = 1)
    /\ (forall k, ~ In k (map name (selectedOptions variant)) ->
                  occurrences k after = occurrences k before).
Proof.
  intros cl variant loc call H before after.
  destruct (params_after_call cl (Some variant) loc call H) as [v [Hv E]].
  injection Hv as <-. subst after. rewrite E. split.
  - intros o Ho. now apply occurrences_setOptions.
  - intros k Hk. now apply occurrences_setOptions_other.
Qed.

Lemma call_collapses_option_names_witness :
  let loc := Sample.at_url "/products/choco-box" "Size=S&ref=x&Size=M&ref=y" in
  let call := ReplaceState "/products/choco-box"
                           "Size=Large&ref=x&ref=y&Flavor=Dark" in
  syncEffect false (Some Sample.large_dark) loc = Some call
  /\ occurrences "Size" (of_string (search (perform loc (Some call)))) = 1
  /\ occurrences "ref" (of_string (search (perform loc (Some call)))) = 2.
Proof.
  intros loc call. split; [reflexivity|].
  destruct (call_collapses_option_names false Sample.large_dark loc call eq_refl)
    as [H1 H2].
  split.
  - exact (H1 {| name := "Size"; value := "Large" |} (or_introl eq_refl)).
  - rewrite (H2 "ref"); [reflexivity|].
    intros [E | [E | []]]; discriminate E.
Defined.

Lemma set_absent n v l : get n l = None -> set n v l = l ++ [(n, v)].
Proof.
  induction l as [|[k x] l IH]; cbn; [reflexivity|].
  destruct (String.eqb k n); [discriminate|].
  intros H. now rewrite (IH H).
Qed.

Lemma get_app_other k n v l :
  k <> n -> get k (l ++ [(n, v)]) = get k l.
Proof.
  intros Hkn. induction l as [|[m x] l IH]; cbn.
  - assert (String.eqb n k = false) as ->; [|reflexivity].
    apply String.eqb_neq. congruence.
  - destruct (String.eqb m k); [reflexivity | exact IH].
Qed.

(** Options under fresh, distinct names are appended in their order. *)
Lemma setOptions_appends options : forall l,
  NoDup (map name options) ->
  (forall o, In o options -> get (name o) l = None) ->
  setOptions options l = l ++ map option_tuple options.
Proof.
  induction options as [|o rest IH]; intros l Hnd Habs.
  - cbn. now rewrite app_nil_r.
  - change (setOptions (o :: rest) l)
      with (setOptions rest (set (name o) (value o) l)).
    cbn in Hnd. inversion Hnd as [|? ? Hnotin Hnd']; subst.
    rewrite (set_absent _ _ _ (Habs o (or_introl eq_refl))).
    rewrite IH; [cbn; now rewrite <- app_assoc | exact Hnd' |].
    intros o' Ho'. rewrite get_app_other.
    + apply Habs. now right.
    + intros E. apply Hnotin. rewrite <- E. now apply in_map.
Qed.

(** X4.  When the URL names none of the variant's (distinctly named)
    options, a run appends them after the existing parameters, in the
    variant's order; on a URL without a query string the query becomes the
    serialized options. *)
Theorem fresh_options_are_appended :
  forall variant loc,
    let options := selectedOptions variant in
    let before := of_string (search loc) in
    let loc' := synchronize false (Some variant) loc in
    NoDup (map name options) ->
    (forall o, In o options -> get (name o) before = None) ->
    of_string (search loc') = before ++ map option_tuple options
    /\ (search loc = "" -> query loc' = toString (map option_tuple options)).
Proof.
  intros variant loc. cbn zeta. intros Hnd Habs. split.
  - destruct (run_cases variant loc) as [[E N] | E].
    + rewrite E. unfold needsUpdate in N.
      destruct (String.eqb (search loc) ""); [discriminate N|].
      destruct (selectedOptions variant) as [|o rest]; [now rewrite app_nil_r|].
      pose proof (anyOptionDiffers_false _ _ N o (or_introl eq_refl)) as G.
      rewrite (Habs o (or_introl eq_refl)) in G. discriminate G.
    + rewrite E. now apply setOptions_appends.
  - intros S.
    assert (Q : query (synchronize false (Some variant) loc) =
                newSearch loc (selectedOptions variant)).
    { unfold synchronize, syncEffect, needsUpdate.
      rewrite S. cbn [String.eqb]. cbn zeta.
      destruct (String.eqb (newSearch loc (selectedOptions variant))
                           (Str.slice1 "")) eqn:Q;
        cbn [negb perform query]; [|reflexivity].
      apply String.eqb_eq in Q. rewrite Q.
      rewrite <- S, slice1_search. reflexivity. }
    rewrite Q, newSearch_unfold.
    rewrite <- of_string_search.
    rewrite (setOptions_appends _ _ Hnd Habs).
    now rewrite (of_string_empty_search loc S).
Qed.

Lemma fresh_options_are_appended_witness :
  let loc := Sample.at_url "/products/choco-box" "ref=abc" in
  of_string (search (synchronize false (Some Sample.large_dark) loc)) =
  [("ref", "abc"); ("Size", "Large"); ("Flavor", "Dark")].
Proof.
  intros loc.
  assert (Hnd : NoDup (map name (selectedOptions Sample.large_dark))).
  { repeat constructor; cbn; intuition discriminate. }
  assert (Habs : forall o, In o (selectedOptions Sample.large_dark) ->
                           get (name o) (of_string (search loc)) = None).
  { intros o [<- | [<- | []]]; reflexivity. }
  rewrite (proj1 (fresh_options_are_appended Sample.large_dark loc Hnd Habs)).
  reflexivity.
Defined.

Lemma fst_overwriteAll options : forall p, fst (overwriteAll options p) = fst p.
Proof.
  induction options as [|o rest IH]; intros p; [reflexivity|].
  rewrite overwriteAll_cons, IH. unfold overwrite.
  destruct (String.eqb (fst p) (name o)) eqn:E; [|reflexivity].
  apply String.eqb_eq in E. now rewrite E.
Qed.

(** X5.  When every option name of the variant already occurs exactly once
    in the URL, a run changes values only: the parameters keep their names,
    their number and their positions. *)
Theorem present_options_are_updated_in_place :
  forall variant loc,
    let options := selectedOptions variant in
    let before := of_string (search loc) in
    let after := of_string (search (synchronize false (Some variant) loc)) in
    (forall o, In o options -> occurrences (name o) before = 1) ->
    map fst after = map fst before
    /\ length after = length before.
Proof.
  intros variant loc. cbn zeta. intros H.
  assert (E : map fst (of_string (search (synchronize false (Some variant) loc)))
              = map fst (of_string (search loc))).
  { destruct (run_cases variant loc) as [[E N] | E]; rewrite E; [reflexivity|].
    rewrite (setOptions_overwrites _ _ H), map_map.
    apply map_ext. apply fst_overwriteAll. }
  split; [exact E|].
  rewrite <- (length_map fst), E. apply length_map.
Qed.

Lemma present_options_are_updated_in_place_witness :
  let loc := Sample.at_url "/products/choco-box" "Flavor=Milk&ref=abc&Size=Small" in
  map fst (of_string (search (synchronize false (Some Sample.large_dark) loc))) =
  ["Flavor"; "ref"; "Size"].
Proof.
  intros loc.
  assert (H : forall o, In o (selectedOptions Sample.large_dark) ->
                        occurrences (name o) (of_string (search loc)) = 1).
  { intros o [<- | [<- | []]]; reflexivity. }
  rewrite (proj1 (present_options_are_updated_in_place Sample.large_dark loc H)).
  reflexivity.
Defined.

(** ** The bytes of the query the effect writes *)

Lemma encode_byte_query_bytes c :
  Str.all is_query_byte (encode_byte c) = true.
Proof.
  destruct c as [[] [] [] [] [] [] [] []]; reflexivity.
Qed.

Lemma encode_query_bytes s : Str.all is_query_byte (encode s) = true.
Proof.
  induction s as [|c s IH]; cbn; [reflexivity|].
  now rewrite all_app, encode_byte_query_bytes, IH.
Qed.

Lemma toString_query_bytes l : Str.all is_query_byte (toString l) = true.
Proof.
  unfold toString. induction l as [|p l IH]; [reflexivity|].
  assert (Hp : Str.all is_query_byte (serialize_tuple p) = true).
  { unfold serialize_tuple. rewrite !all_app, !encode_query_bytes. reflexivity. }
  destruct l as [|p' l]; [exact Hp|].
  change (Str.join "&" (map serialize_tuple (p :: p' :: l)))
    with (serialize_tuple p ++ "&" ++ Str.join "&" (map serialize_tuple (p' :: l)))%string.
  rewrite !all_app, Hp, IH. reflexivity.
Qed.

(** X6.  The query the effect passes to [replaceState] is made of ASCII
    letters, digits and [* - . _ + % = &] only, whatever bytes the current
    URL and the option names and values hold; so it has no [#], no [?] and
    no space. *)
Theorem written_query_is_url_safe :
  forall combinedListing selectedVariant loc path s,
    syncEffect combinedListing selectedVariant loc = Some (ReplaceState path s) ->
    Str.all is_query_byte s = true
    /\ Str.all (fun c => negb (Ascii.eqb c "#") && negb (Ascii.eqb c "?")
                          && negb (Ascii.eqb c " ")) s = true.
Proof.
  intros cl sv loc path s H.
  apply call_shape in H as [variant [_ [_ [_ [E _]]]]].
  injection E as _ ->.
  assert (A : Str.all is_query_byte (newSearch loc (selectedOptions variant)) = true).
  { rewrite newSearch_unfold. apply toString_query_bytes. }
  split; [exact A|].
  revert A. apply all_weaken.
  intros c. destruct c as [[] [] [] [] [] [] [] []]; vm_compute;
    intros Hc; first [reflexivity | discriminate Hc].
Qed.

Lemma written_query_is_url_safe_witness :
  let variant := {| variantId := "v"; variantTitle := "t"; priceAmount := "1";
                    availableForSale := true; variantProductHandle := "h";
                    selectedOptions := [ {| name := "Size #1"; value := "a?b c" |} ] |} in
  syncEffect false (Some variant) (Sample.at_url "/products/h" "") =
  Some (ReplaceState "/products/h" "Size+%231=a%3Fb+c")
  /\ Str.all is_query_byte "Size+%231=a%3Fb+c" = true.
Proof.
  intros variant. split; [reflexivity|].
  exact (proj1 (written_query_is_url_safe false (Some variant)
                  (Sample.at_url "/products/h" "") "/products/h"
                  "Size+%231=a%3Fb+c" eq_refl)).
Defined.

Lemma loader_rejected env args c r schedule e :
  params_productHandle args = Some (String c r) ->
  promise_all schedule = Rejected e ->
  loader env args schedule =
  (Finished (Threw e),
   [QueryProduct (String c r) (getSelectedProductOptions env (request args))
                 (country (i18n args)) (language (i18n args));
    LoadPage PRODUCT (Some (String c r))]).
Proof.
  intros Hh Hs. unfold loader. rewrite (loader_begin_ok env args c r Hh).
  unfold await_all. now rewrite Hs.
Qed.

(** X7.  A run of either loader that has finished is final: settlements
    that arrive later change neither its outcome nor its trace. *)
Theorem finished_run_is_final :
  forall env args,
    (forall s1 s2, fst (loader env args s1) <> Suspended ->
                   loader env args (s1 ++ s2) = loader env args s1)
    /\ (forall s1 s2, fst (home_loader env args s1) <> Suspended ->
                      home_loader env args (s1 ++ s2) = home_loader env args s1).
Proof.
  intros env args. split; intros s1 s2.
  - unfold loader. destruct (loader_begin env args []) as [[[h so]|e] t];
      [|reflexivity].
    unfold await_all. intros H.
    rewrite promise_all_settled; [reflexivity|].
    intros E. rewrite E in H. now apply H.
  - unfold home_loader. destruct (home_begin env args []) as [[seo|e] t];
      [|reflexivity].
    unfold await_all. intros H.
    rewrite promise_all_settled; [reflexivity|].
    intros E. rewrite E in H. now apply H.
Qed.

Lemma finished_run_is_final_witness :
  let env := SpecModel.imports true in
  let args := Sample.product_args "/products/ghost" "" "ghost" None in
  let s1 := [Fulfil1 (Some "page");
             Fulfil0 {| pq_shop := Sample.shop; pq_product := None |}] in
  let s2 := [Reject0 (ThrownError "late"); Fulfil1 None] in
  fst (loader env args s1) <> Suspended
  /\ loader env args (s1 ++ s2) = loader env args s1.
Proof.
  intros env args s1 s2.
  assert (H : fst (loader env args s1) <> Suspended) by discriminate.
  split; [exact H|].
  exact (proj1 (finished_run_is_final env args) s1 s2 H).
Defined.

(** X8.  Without a product handle (absent or empty) the product loader
    throws tiny-invariant's error at once: for every schedule the outcome is
    the [Error] whose message is ["Invariant failed"] in a production build
    and ["Invariant failed: Missing productHandle param, check route
    filename"] otherwise, and no read has been started. *)
Theorem missing_handle_fails_before_any_read :
  forall env args schedule,
    params_productHandle args = None \/ params_productHandle args = Some "" ->
    loader env args schedule =
    (Finished (Threw (ThrownError
       (if isProduction env then "Invariant failed"
        else "Invariant failed: Missing productHandle param, check route filename"))),
     []).
Proof.
  intros env args schedule H. unfold loader, loader_begin, invariant.
  destruct H as [-> | ->]; cbn; unfold invariant_message;
    destruct (isProduction env); reflexivity.
Qed.

Lemma missing_handle_fails_before_any_read_witness :
  let args := {| params_productHandle := Some "";
                 params_locale := None;
                 request := Sample.product_request "/products/" "";
                 i18n := {| country := "US"; language := "EN"; pathPrefix := None |} |} in
  let schedule := [Fulfil0 {| pq_shop := Sample.shop; pq_product := None |};
                   Fulfil1 None] in
  params_productHandle args = Some ""
  /\ loader (SpecModel.imports_in false true) args schedule =
     (Finished (Threw (ThrownError
        "Invariant failed: Missing productHandle param, check route filename")), [])
  /\ loader (SpecModel.imports_in true true) args schedule =
     (Finished (Threw (ThrownError "Invariant failed")), []).
Proof.
  intros args schedule. split; [reflexivity|]. split.
  - exact (missing_handle_fails_before_any_read (SpecModel.imports_in false true)
             args schedule (or_intror eq_refl)).
  - exact (missing_handle_fails_before_any_read (SpecModel.imports_in true true)
             args schedule (or_intror eq_refl)).
Defined.

(** X9.  The first read to reject fails the product loader with its error,
    also when the other read has fulfilled before and whatever settles
    later; nothing after the [await] is started. *)
Theorem rejected_read_fails_the_loader :
  forall env args c r,
    params_productHandle args = Some (String c r) ->
    let reads :=
      [QueryProduct (String c r) (getSelectedProductOptions env (request args))
                    (country (i18n args)) (language (i18n args));
       LoadPage PRODUCT (Some (String c r))] in
    forall e rest q w,
      loader env args (Reject0 e :: rest) = (Finished (Threw e), reads)
      /\ loader env args (Reject1 e :: rest) = (Finished (Threw e), reads)
      /\ loader env args (Fulfil1 w :: Reject0 e :: rest) = (Finished (Threw e), reads)
      /\ loader env args (Fulfil0 q :: Reject1 e :: rest) = (Finished (Threw e), reads).
Proof.
  intros env args c r Hh reads e rest q w.
  assert (R : forall s1, promise_all s1 = Rejected e ->
                         loader env args (s1 ++ rest) = (Finished (Threw e), reads)).
  { intros s1 H. apply loader_rejected; [exact Hh|].
    rewrite promise_all_settled; [exact H|]. rewrite H. discriminate. }
  repeat split.
  - exact (R [Reject0 e] eq_refl).
  - exact (R [Reject1 e] eq_refl).
  - exact (R [Fulfil1 w; Reject0 e] eq_refl).
  - exact (R [Fulfil0 q; Reject1 e] eq_refl).
Qed.

Lemma rejected_read_fails_the_loader_witness :
  fst (loader (SpecModel.imports true)
         (Sample.product_args "/products/choco-box" "" "choco-box" None)
         [Fulfil1 (Some "page"); Reject0 (ThrownError "catalog down");
          Fulfil0 {| pq_shop := Sample.shop; pq_product := None |}])
  = Finished (Threw (ThrownError "catalog down")).
Proof.
  pose proof (rejected_read_fails_the_loader (SpecModel.imports true)
                (Sample.product_args "/products/choco-box" "" "choco-box" None)
                "c"%char "hoco-box" eq_refl (ThrownError "catalog down")
                [Fulfil0 {| pq_shop := Sample.shop; pq_product := None |}]
                {| pq_shop := Sample.shop; pq_product := None |} (Some "page"))
    as [_ [_ [H _]]].
  exact (f_equal fst H).
Defined.

(** ** The product loader's payload *)

(** What a returned payload tells about the run. *)
Lemma loader_returned env args schedule payload t :
  loader env args schedule = (Finished (Returned payload), t) ->
  exists c r q w p,
    params_productHandle args = Some (String c r)
    /\ promise_all schedule = Fulfilled (q, w)
    /\ pq_product q = Some p
    /\ Str.is_empty (id p) = false
    /\ redirectIfHandleIsLocalized env (request args) (String c r) p = None
    /\ (redirectToFirstVariant env = true ->
        redirectIfCombinedListing env (request args) p = None)
    /\ payload =
       {| p_shop := pq_shop q;
          p_product := p;
          p_weaverseData := w;
          p_storeDomain := primaryDomain_url (pq_shop q);
          p_seo := seoPayload_product env p (url (request args));
          p_recommended := PendingRecommended (id p);
          p_selectedOptions := getSelectedProductOptions env (request args) |}
    /\ In (GetRecommendedProducts (id p)) t
    /\ In (SeoProduct (url (request args))) t.
Proof.
  unfold loader, loader_begin, invariant, await_all.
  destruct (params_productHandle args) as [[|c r]|]; cbn; try discriminate.
  destruct (promise_all schedule) as [|[q w]|e] eqn:Hs; cbn; try discriminate.
  unfold loader_resume, run_check.
  destruct (pq_product q) as [p|] eqn:Hp; cbn; [|discriminate].
  destruct (Str.is_empty (id p)) eqn:Hid; cbn; [discriminate|].
  destruct (redirectIfHandleIsLocalized env (request args) (String c r) p) eqn:H1;
    cbn; [discriminate|].
  destruct (redirectToFirstVariant env) eqn:Hf; cbn.
  - destruct (redirectIfCombinedListing env (request args) p) eqn:H2; cbn;
      [discriminate|].
    intros H. inversion H; subst. exists c, r, q, w, p.
    repeat split; auto; cbn; tauto.
  - intros H. inversion H; subst. exists c, r, q, w, p.
    repeat split; auto; try discriminate; cbn; tauto.
Qed.

(** X10.  Every payload the product loader returns is consistent: its
    product has an identity, the store domain is the shop's primary domain,
    the pending recommended-products read is the one started for that
    product's id, the SEO payload is computed from that product and the
    request URL, the selected options are those read from the request, and
    neither redirect helper asked for a redirect. *)
Theorem product_payload_is_consistent :
  forall env args schedule payload t,
    loader env args schedule = (Finished (Returned payload), t) ->
    Str.is_empty (id (p_product payload)) = false
    /\ p_storeDomain payload = primaryDomain_url (p_shop payload)
    /\ p_recommended payload = PendingRecommended (id (p_product payload))
    /\ In (GetRecommendedProducts (id (p_product payload))) t
    /\ p_seo payload =
       seoPayload_product env (p_product payload) (url (request args))
    /\ p_selectedOptions payload = getSelectedProductOptions env (request args)
    /\ (exists h, params_productHandle args = Some h
                  /\ redirectIfHandleIsLocalized env (request args) h
                       (p_product payload) = None)
    /\ (redirectToFirstVariant env = true ->
        redirectIfCombinedListing env (request args) (p_product payload) = None).
Proof.
  intros env args schedule payload t H.
  apply loader_returned in H
    as (c & r & q & w & p & Hh & _ & _ & Hid & H1 & H2 & -> & Hr & _).
  cbn. repeat split; auto. exists (String c r). split; assumption.
Qed.

Lemma product_payload_is_consistent_witness :
  let env := SpecModel.imports true in
  let args := Sample.product_args "/products/choco-box" "?Size=Large" "choco-box" None in
  let q := {| pq_shop := Sample.shop;
              pq_product := Some (Sample.choco_box [] "choco-box") |} in
  exists payload t,
    loader env args [Fulfil1 (Some "page"); Fulfil0 q] = (Finished (Returned payload), t)
    /\ p_recommended payload = PendingRecommended "gid://shopify/Product/7"
    /\ p_storeDomain payload = "https://tastee.example".
Proof.
  intros env args q.
  destruct (loader env args [Fulfil1 (Some "page"); Fulfil0 q]) as [o t] eqn:E.
  vm_compute in E. injection E as <- <-.
  eexists. eexists. split; [reflexivity|].
  pose proof (product_payload_is_consistent env args
                [Fulfil1 (Some "page"); Fulfil0 q] _ _ eq_refl) as [_ [H1 [H2 _]]].
  split; [exact H2 | exact H1].
Defined.

(** X11.  The recommended-products read and the SEO computation are started
    only in runs that return a payload: if either appears in the trace, the
    loader has returned, the read is for the returned product's id and the
    SEO payload is for the request URL. *)
Theorem late_steps_only_when_returning :
  forall env args schedule,
    (forall pid, In (GetRecommendedProducts pid) (snd (loader env args schedule)) ->
                 exists payload,
                   fst (loader env args schedule) = Finished (Returned payload)
                   /\ id (p_product payload) = pid)
    /\ (forall u, In (SeoProduct u) (snd (loader env args schedule)) ->
                  u = url (request args)
                  /\ exists payload,
                       fst (loader env args schedule) = Finished (Returned payload)).
Proof.
  intros env args schedule.
  unfold loader, loader_begin, invariant, await_all.
  destruct (params_productHandle args) as [[|c r]|]; cbn;
    try (split; intros ? []).
  destruct (promise_all schedule) as [|[q w]|e]; cbn;
    try (split; intros ? H; cbn in H; intuition discriminate).
  unfold loader_resume, run_check.
  destruct (pq_product q) as [p|]; cbn;
    [|split; intros ? H; cbn in H; intuition discriminate].
  destruct (Str.is_empty (id p)); cbn;
    [split; intros ? H; cbn in H; intuition discriminate|].
  destruct (redirectIfHandleIsLocalized env (request args) (String c r) p); cbn;
    [split; intros ? H; cbn in H; intuition discriminate|].
  destruct (redirectToFirstVariant env); cbn;
    [destruct (redirectIfCombinedListing env (request args) p); cbn;
     [split; intros ? H; cbn in H; intuition discriminate|]|].
  all: split; [intros pid H | intros u H]; cbn in H;
    repeat (destruct H as [H | H]; try discriminate H); try contradiction;
    injection H as <-;
    try (split; [reflexivity|]); eexists; try split; reflexivity.
Qed.

(** X12.  With [redirectToFirstVariant] off the combined-listing helper is
    never called, whatever the run; with it on, a product that passes the
    localized-handle check and for which the helper asks for a redirect
    ends the loader with that redirect, before the recommended-products read
    and the SEO computation. *)
Theorem combined_listing_redirect_is_gated :
  forall env args,
    (redirectToFirstVariant env = false ->
     forall schedule, ~ In CheckCombinedListing (snd (loader env args schedule)))
    /\ (redirectToFirstVariant env = true ->
        forall schedule q w c r p r2,
          params_productHandle args = Some (String c r) ->
          promise_all schedule = Fulfilled (q, w) ->
          pq_product q = Some p ->
          Str.is_empty (id p) = false ->
          redirectIfHandleIsLocalized env (request args) (String c r) p = None ->
          redirectIfCombinedListing env (request args) p = Some r2 ->
          loader env args schedule =
          (Finished (Threw (ThrownResponse r2)),
           [QueryProduct (String c r) (getSelectedProductOptions env (request args))
                         (country (i18n args)) (language (i18n args));
            LoadPage PRODUCT (Some (String c r));
            CheckHandleIsLocalized (String c r);
            CheckCombinedListing])).
Proof.
  intros env args. split.
  - intros Hf schedule.
    unfold loader, loader_begin, invariant, await_all.
    destruct (params_productHandle args) as [[|c r]|]; cbn; try tauto.
    destruct (promise_all schedule) as [|[q w]|e]; cbn;
      try (intuition discriminate).
    unfold loader_resume, run_check.
    destruct (pq_product q) as [p|]; cbn; [|intuition discriminate].
    destruct (Str.is_empty (id p)); cbn; [intuition discriminate|].
    rewrite Hf.
    destruct (redirectIfHandleIsLocalized env (request args) (String c r) p); cbn;
      intuition discriminate.
  - intros Hf schedule q w c r p r2 Hh Hs Hp Hid H1 H2.
    rewrite (loader_joined env args c r schedule (q, w) Hh Hs).
    unfold loader_resume, run_check. rewrite Hp, Hid, H1, Hf, H2. reflexivity.
Qed.

Lemma combined_listing_redirect_is_gated_witness :
  let args := Sample.product_args "/products/choco-box" "" "choco-box" None in
  let q := {| pq_shop := Sample.shop;
              pq_product := Some (Sample.choco_box ["combined"] "choco-box") |} in
  ~ In CheckCombinedListing
       (snd (loader (SpecModel.imports false) args [Fulfil0 q; Fulfil1 None]))
  /\ fst (loader (SpecModel.imports true) args [Fulfil0 q; Fulfil1 None]) =
     Finished (Threw (ThrownResponse
       (SpecModel.redirect "https://tastee.example/products/choco-box-dark"))).
Proof.
  intros args q. split.
  - exact (proj1 (combined_listing_redirect_is_gated (SpecModel.imports false) args)
                 eq_refl [Fulfil0 q; Fulfil1 None]).
  - exact (f_equal fst
             (proj2 (combined_listing_redirect_is_gated (SpecModel.imports true) args)
                    eq_refl [Fulfil0 q; Fulfil1 None] q None "c"%char "hoco-box"
                    (Sample.choco_box ["combined"] "choco-box")
                    (SpecModel.redirect "https://tastee.example/products/choco-box-dark")
                    eq_refl eq_refl eq_refl eq_refl eq_refl eq_refl)).
Defined.

Lemma late_steps_only_when_returning_witness :
  let env := SpecModel.imports true in
  let args := Sample.product_args "/products/choco-box" "" "choco-box" None in
  let q := {| pq_shop := Sample.shop;
              pq_product := Some (Sample.choco_box [] "choco-box") |} in
  In (GetRecommendedProducts "gid://shopify/Product/7")
     (snd (loader env args [Fulfil0 q; Fulfil1 None]))
  /\ exists payload,
       fst (loader env args [Fulfil0 q; Fulfil1 None]) = Finished (Returned payload)
       /\ id (p_product payload) = "gid://shopify/Product/7".
Proof.
  intros env args q.
  assert (H : In (GetRecommendedProducts "gid://shopify/Product/7")
                 (snd (loader env args [Fulfil0 q; Fulfil1 None]))).
  { vm_compute. tauto. }
  split; [exact H|].
  exact (proj1 (late_steps_only_when_returning env args [Fulfil0 q; Fulfil1 None])
               "gid://shopify/Product/7" H).
Defined.

(** ** The home loader *)

(** X13.  Every payload the home loader returns carries content that passed
    [validateWeaverseData], together with the shop of the shop query and the
    SEO payload computed before the reads; the run made exactly the SEO
    computation, the two reads and the validation, in this order. *)
Theorem home_payload_is_validated :
  forall env args schedule payload t,
    home_loader env args schedule = (Finished (Returned payload), t) ->
    validateWeaverseData env (h_weaverseData payload) = None
    /\ promise_all schedule =
       Fulfilled (h_weaverseData payload, {| sq_shop := h_shop payload |})
    /\ h_seo payload = seoPayload_home env
    /\ t = [SeoHome; LoadPage (home_type env args) None; QueryShop;
            ValidateWeaverseData].
Proof.
  intros env args schedule payload t.
  unfold home_loader, await_all. cbn.
  destruct (promise_all schedule) as [|[w [shop]]|e]; cbn; try discriminate.
  destruct (validateWeaverseData env w) eqn:V; cbn; [discriminate|].
  intros H. inversion H; subst. cbn. repeat split. exact V.
Qed.

Lemma home_payload_is_validated_witness :
  let env := SpecModel.imports true in
  let args := Sample.home_args None None in
  exists payload t,
    home_loader env args [Fulfil1 Sample.home_shop; Fulfil0 (Some "page")] =
    (Finished (Returned payload), t)
    /\ validateWeaverseData env (h_weaverseData payload) = None.
Proof.
  intros env args.
  destruct (home_loader env args [Fulfil1 Sample.home_shop; Fulfil0 (Some "page")])
    as [o t] eqn:E.
  vm_compute in E. injection E as <- <-.
  eexists. eexists. split; [reflexivity|].
  exact (proj1 (home_payload_is_validated env args
                  [Fulfil1 Sample.home_shop; Fulfil0 (Some "page")] _ _ eq_refl)).
Defined.

(** X14.  The page type the home loader asks for is [INDEX] or [CUSTOM];
    it is [CUSTOM] exactly when the route has a non-empty locale segment
    whose lower-casing differs from the active path prefix without its
    first character.  So without an active prefix every segment that
    lower-cases to a non-empty string is a custom page, and every page read
    of a run is for that type and carries no handle. *)
Theorem home_page_type :
  forall env args,
    (home_type env args = INDEX \/ home_type env args = CUSTOM)
    /\ (home_type env args = CUSTOM <->
        exists seg, params_locale args = Some seg /\ seg <> ""
                    /\ toLowerCase env seg <> home_locale args)
    /\ (pathPrefix (i18n args) = None ->
        forall seg, params_locale args = Some seg -> seg <> "" ->
                    toLowerCase env seg <> "" -> home_type env args = CUSTOM)
    /\ (forall schedule ty h,
           In (LoadPage ty h) (snd (home_loader env args schedule)) ->
           ty = home_type env args /\ h = None).
Proof.
  intros env args.
  assert (C : home_type env args = CUSTOM <->
              exists seg, params_locale args = Some seg /\ seg <> ""
                          /\ toLowerCase env seg <> home_locale args).
  { unfold home_type. destruct (params_locale args) as [[|c r]|].
    - split; [discriminate | intros [seg [E [N _]]]; congruence].
    - destruct (String.eqb (toLowerCase env (String c r)) (home_locale args)) eqn:E;
        cbn [negb].
      + apply String.eqb_eq in E. split; [discriminate|].
        intros [seg [Es [_ N]]]. injection Es as <-. contradiction.
      + apply String.eqb_neq in E. split; [intros _ | reflexivity].
        exists (String c r). repeat split; [discriminate | exact E].
    - split; [discriminate | intros [seg [E _]]; discriminate E]. }
  split; [|split; [exact C|split]].
  - unfold home_type. destruct (params_locale args) as [[|c r]|]; auto.
    destruct (negb _); auto.
  - intros Hp seg Hs Hne Hl. apply C. exists seg.
    repeat split; try assumption. unfold home_locale. now rewrite Hp.
  - intros schedule ty h. unfold home_loader, await_all. cbn.
    destruct (promise_all schedule) as [|[w q]|e]; cbn;
      [| destruct (validateWeaverseData env w); cbn |];
      intros H; repeat (destruct H as [H | H]; try discriminate H);
      try contradiction; injection H as <- <-; split; reflexivity.
Qed.

Lemma home_page_type_witness :
  home_type (SpecModel.imports true) (Sample.home_args (Some "Shop") None) = CUSTOM.
Proof.
  exact (proj1 (proj2 (proj2 (home_page_type (SpecModel.imports true)
           (Sample.home_args (Some "Shop") None))))
           eq_refl "Shop" eq_refl ltac:(discriminate) ltac:(discriminate)).
Defined.

(** ** The analytics view and [meta] *)

Lemma or_else_empty a : or_else a "" = a.
Proof. unfold or_else. destruct a; reflexivity. Qed.

(** X15.  The product view is rendered exactly when there is a selected
    variant; it then reports one product with quantity 1 that carries the
    product's id, title and vendor and the variant's id and title, and its
    price is the variant's amount, or ["0"] when that amount is empty: the
    reported price is never empty. *)
Theorem product_view_reports_one_product :
  forall product selectedVariant,
    (Product_view product selectedVariant = None <-> selectedVariant = None)
    /\ (forall items,
           Product_view product selectedVariant = Some items ->
           exists variant item,
             selectedVariant = Some variant /\ items = [item]
             /\ pv_id item = id product
             /\ pv_title item = title product
             /\ pv_vendor item = vendor product
             /\ pv_variantId item = variantId variant
             /\ pv_variantTitle item = variantTitle variant
             /\ pv_quantity item = 1
             /\ pv_price item <> ""
             /\ (priceAmount variant <> "" -> pv_price item = priceAmount variant)
             /\ (priceAmount variant = "" -> pv_price item = "0")).
Proof.
  intros product sv. split.
  - destruct sv; cbn; split; congruence.
  - intros items H. destruct sv as [variant|]; [|discriminate H].
    cbn in H. injection H as <-. eexists. eexists.
    split; [reflexivity|]. split; [reflexivity|]. cbn.
    rewrite !or_else_empty. repeat split.
    + unfold or_else. destruct (priceAmount variant); cbn; discriminate.
    + unfold or_else. destruct (priceAmount variant); cbn; congruence.
    + intros ->. reflexivity.
Qed.

Lemma product_view_reports_one_product_witness :
  let free := {| variantId := "gid://shopify/ProductVariant/3";
                 variantTitle := "Sample";
                 priceAmount := "";
                 availableForSale := true;
                 variantProductHandle := "sample";
                 selectedOptions := [] |} in
  exists item,
    Product_view (Sample.choco_box [] "choco-box") (Some free) = Some [item]
    /\ pv_price item = "0".
Proof.
  intros free.
  destruct (proj2 (product_view_reports_one_product
                     (Sample.choco_box [] "choco-box") (Some free))
                  _ eq_refl)
    as (variant & item & Hv & Hi & _ & _ & _ & _ & _ & _ & _ & _ & Hp).
  injection Hv as <-. injection Hi as <-.
  eexists. split; [reflexivity|]. exact (Hp eq_refl).
Defined.

Lemma meta_args_app m1 m2 : meta_args (m1 ++ m2) = meta_args m1 ++ meta_args m2.
Proof. unfold meta_args. now rewrite map_app, filter_app. Qed.

(** X16.  The product route's [meta] hands [getSeoMeta] exactly the SEO
    payloads of the matches that have one, in route order: no argument is
    undefined, no defined payload is dropped, a match without loader data or
    without [seo] contributes nothing, and the arguments of a longer route
    are those of its parts, one after the other. *)
Theorem meta_passes_the_defined_seo :
  forall matches,
    (forall a, In a (meta_args matches) ->
               exists s, a = Some s
                         /\ exists m, In m matches /\ match_seo m = Some s)
    /\ (forall m s, In m matches -> match_seo m = Some s ->
                    In (Some s) (meta_args matches))
    /\ (forall m, match_seo m = None -> meta_args (m :: matches) = meta_args matches)
    /\ length (meta_args matches) <= length matches
    /\ (forall more, meta_args (matches ++ more) =
                     meta_args matches ++ meta_args more).
Proof.
  intros matches. unfold meta_args. repeat split.
  - intros a H. apply filter_In in H as [Hin Hd].
    destruct a as [s|]; [|discriminate Hd]. exists s. split; [reflexivity|].
    apply in_map_iff in Hin as [m [E Hm]]. exists m. split; assumption.
  - intros m s Hm E. apply filter_In. split; [|reflexivity].
    rewrite <- E. now apply in_map.
  - intros m E. cbn. now rewrite E.
  - rewrite <- (length_map match_seo matches). apply filter_length_le.
  - intros more. apply meta_args_app.
Qed.

Lemma meta_passes_the_defined_seo_witness :
  let seo := SpecModel.seoPayload_home in
  let root := {| match_data := None |} in
  let layout := {| match_data := Some {| data_seo := None |} |} in
  let leaf := {| match_data := Some {| data_seo := Some seo |} |} in
  In (Some seo) (meta_args [root; layout; leaf])
  /\ meta_args [root; layout; leaf] = [Some seo].
Proof.
  intros seo root layout leaf. split; [|reflexivity].
  apply (proj1 (proj2 (meta_passes_the_defined_seo [root; layout; leaf])) leaf seo).
  - right. right. left. reflexivity.
  - reflexivity.
Defined.

(** X17.  What a loader's payload gives to [meta]: for the product route,
    the match of a returned payload contributes the SEO payload of the
    returned product and the request URL; the home route's [meta] gets the
    SEO payload computed before the reads, whatever was fetched. *)
Theorem loader_seo_reaches_meta :
  forall (Meta : Type) (getSeoMeta : list (option SeoConfig) -> Meta) env args,
    (forall schedule payload t,
        loader env args schedule = (Finished (Returned payload), t) ->
        meta getSeoMeta [ {| match_data := Some {| data_seo := Some (p_seo payload) |} |} ]
        = getSeoMeta
            [Some (seoPayload_product env (p_product payload) (url (request args)))])
    /\ (forall schedule payload t,
           home_loader env args schedule = (Finished (Returned payload), t) ->
           home_meta getSeoMeta (Some payload) = getSeoMeta [Some (seoPayload_home env)]).
Proof.
  intros Meta getSeoMeta env args. split; intros schedule payload t H.
  - apply loader_returned in H
      as (c & r & q & w & p & _ & _ & _ & _ & _ & _ & -> & _).
    reflexivity.
  - unfold home_loader, await_all in H. cbn in H.
    destruct (promise_all schedule) as [|[w q]|e]; cbn in H; try discriminate H.
    destruct (validateWeaverseData env w); cbn in H; inversion H; subst.
    reflexivity.
Qed.

Lemma loader_seo_reaches_meta_witness :
  let env := SpecModel.imports true in
  let args := Sample.home_args None None in
  let payload := {| h_shop := sq_shop Sample.home_shop;
                    h_weaverseData := Some "page";
                    h_analytics := {| pageType := AnalyticsPageType.home |};
                    h_seo := SpecModel.seoPayload_home |} in
  home_loader env args [Fulfil0 (Some "page"); Fulfil1 Sample.home_shop] =
  (Finished (Returned payload),
   [SeoHome; LoadPage INDEX None; QueryShop; ValidateWeaverseData])
  /\ home_meta (fun l => l) (Some payload) = [Some SpecModel.seoPayload_home].
Proof.
  intros env args payload. split; [reflexivity|].
  exact (proj2 (loader_seo_reaches_meta _ (fun l => l) env args)
               [Fulfil0 (Some "page"); Fulfil1 Sample.home_shop] payload _ eq_refl).
Defined.
